(** * TOAST tile pyramids: a shallow embedding of [toasty.toast] and
    [toasty.pyramid]

    The development follows the Python sources function by function.
    Python integers are [Z] ([//] and [%] by a positive divisor are
    [Z.div] and [Z.modulo], both flooring), named tuples are records,
    dictionaries are [gmap]s, generators are the lists of the values they
    yield together with the way they end, and a raised exception is an
    explicit result. *)

From Stdlib Require Import ZArith Lia Ascii.
From stdpp Require Import base numbers option list gmap strings pretty.

#[local] Open Scope Z_scope.

(** ** Exceptions and results *)

Inductive exn : Set :=
| AssertionError
| IndexError
| KeyError
| TypeError
| ValueError.

(** The result of a call that either returns or raises. *)
Inductive outcome (A : Type) : Type :=
| Returns (a : A)
| Raises (e : exn).
Arguments Returns {A} a.
Arguments Raises {A} e.

Definition obind {A B} (f : A → outcome B) (o : outcome A) : outcome B :=
  match o with
  | Returns a => f a
  | Raises e => Raises e
  end.

Notation "x ←! o ; k" := (obind (fun x => k) o)
  (at level 20, o at level 100, k at level 200, right associativity,
   format "x  ←!  o ;  '/' k").

(** ** Positions

    [Pos = namedtuple('Pos', 'n x y')], declared identically in
    [toast.py] and [pyramid.py]. *)

Record Pos : Set := mkPos { n : Z; x : Z; y : Z }.

#[global] Instance Pos_eq_dec : EqDecision Pos.
Proof. solve_decision. Defined.

#[global] Program Instance Pos_countable : Countable Pos :=
  inj_countable' (fun p => (n p, x p, y p))
                 (fun t => mkPos t.1.1 t.1.2 t.2) _.
Next Obligation. by intros []. Qed.

(** ** [toasty.pyramid] *)

Module Pyramid.

(** [depth2tiles(depth)]: [(4 ** (depth + 1) - 1) // 3]. *)
Definition depth2tiles (depth : Z) : Z :=
  (4 ^ (depth + 1) - 1) `div` 3.

(** [pos_parent(pos)]: raises [ValueError] when [pos.n < 1]. *)
Definition pos_parent (pos : Pos) : outcome (Pos * Z * Z) :=
  if n pos <? 1 then Raises ValueError
  else
    let parent := mkPos (n pos - 1) (x pos `div` 2) (y pos `div` 2) in
    Returns (parent, x pos `mod` 2, y pos `mod` 2).

(** [pos_children(pos)]: top left, top right, bottom left, bottom right. *)
Definition pos_children (pos : Pos) : list Pos :=
  let '(n, x, y) := (n pos, x pos, y pos) in
  let n := n + 1 in
  let x := x * 2 in
  let y := y * 2 in
  [ mkPos n x y;
    mkPos n (x + 1) y;
    mkPos n x (y + 1);
    mkPos n (x + 1) (y + 1) ].

(** [is_subtile(deeper_pos, shallower_pos)].  The recursion climbs one
    level per call; [None] only when the fuel runs out. *)
Fixpoint is_subtile_fuel (fuel : nat) (deeper_pos shallower_pos : Pos)
  : option (outcome bool) :=
  match fuel with
  | O => None
  | S fuel' =>
      if n deeper_pos <? n shallower_pos then Some (Raises ValueError)
      else if n deeper_pos =? n shallower_pos then
        Some (Returns ((x deeper_pos =? x shallower_pos)
                       && (y deeper_pos =? y shallower_pos)))
      else
        match pos_parent deeper_pos with
        | Returns (parent, _, _) => is_subtile_fuel fuel' parent shallower_pos
        | Raises e => Some (Raises e)
        end
  end.

Definition is_subtile (deeper_pos shallower_pos : Pos) : option (outcome bool) :=
  is_subtile_fuel (S (Z.to_nat (n deeper_pos - n shallower_pos)))
                  deeper_pos shallower_pos.

(** [next_highest_power_of_2(n)]: [p = 256; while p < n: p *= 2].  Every
    turn of the loop doubles [p], so the fuel bounds the number of turns;
    [None] only when it runs out. *)
Fixpoint next_power_loop (fuel : nat) (p n : Z) : option Z :=
  match fuel with
  | O => None
  | S fuel' => if p <? n then next_power_loop fuel' (p * 2) n else Some p
  end.

Definition next_highest_power_of_2 (n : Z) : Z :=
  default 256 (next_power_loop (S (Z.to_nat n)) 256 n).

(** [_postfix_pos(pos, depth)]: the positions the generator yields, in
    order; the fuel bounds the number of levels below [pos]. *)
Fixpoint postfix_pos_fuel (fuel : nat) (pos : Pos) (depth : Z) : option (list Pos) :=
  match fuel with
  | O => None
  | S fuel' =>
      if n pos >? depth then Some []
      else
        items ← mapM (fun immed_child => postfix_pos_fuel fuel' immed_child depth)
                     (pos_children pos);
        Some (concat items ++ [pos])
  end.

Definition _postfix_pos (pos : Pos) (depth : Z) : list Pos :=
  default [] (postfix_pos_fuel (S (Z.to_nat (depth + 1 - n pos))) pos depth).

(** [generate_pos(depth)]. *)
Definition generate_pos (depth : Z) : list Pos :=
  _postfix_pos (mkPos 0 0 0) depth.

End Pyramid.

(** ** [toasty.toast]: positions *)

(** [depth2tiles(depth)]: [(4 ** (depth + 1) - 1) // 3], for
    [depth ≥ -1]; below that Python's [**] leaves the integers. *)
Definition depth2tiles (depth : Z) : Z :=
  (4 ^ (depth + 1) - 1) `div` 3.

(** [_parent(pos)]: no check on the depth. *)
Definition _parent (pos : Pos) : Pos * Z * Z :=
  let parent := mkPos (n pos - 1) (x pos `div` 2) (y pos `div` 2) in
  (parent, x pos `mod` 2, y pos `mod` 2).

(** [is_subtile(deeper_pos, shallower_pos)] of [toast.py], climbing with
    [_parent]. *)
Fixpoint is_subtile_fuel (fuel : nat) (deeper_pos shallower_pos : Pos)
  : option (outcome bool) :=
  match fuel with
  | O => None
  | S fuel' =>
      if n deeper_pos <? n shallower_pos then Some (Raises ValueError)
      else if n deeper_pos =? n shallower_pos then
        Some (Returns ((x deeper_pos =? x shallower_pos)
                       && (y deeper_pos =? y shallower_pos)))
      else is_subtile_fuel fuel' (_parent deeper_pos).1.1 shallower_pos
  end.

Definition is_subtile (deeper_pos shallower_pos : Pos) : option (outcome bool) :=
  is_subtile_fuel (S (Z.to_nat (n deeper_pos - n shallower_pos)))
                  deeper_pos shallower_pos.

(** The sum [l[0] + l[1] + ...] of a list of integers. *)
Definition Zsum (l : list Z) : Z := foldr Z.add 0 l.

(** [Σ_{i=0}^{d} 4^i], term by term. *)
Definition sum_pow4 (d : Z) : Z := Zsum ((fun i => 4 ^ i) <$> seqZ 0 (d + 1)).

(** ** The geometry kernel

    [mid] and [subsample] live in the compiled extension [_libtoasty] and
    work on floating-point longitudes and latitudes; the traversal only
    moves their results around, so they are an interface here.  [radians]
    is [np.radians] applied to one [(lon, lat)] pair of the table
    [level1], given in degrees. *)

Class Geometry := {
  Corner : Type;
  Grid : Type;
  radians : Z * Z → Corner;
  mid : Corner → Corner → Corner;
  subsample : Corner → Corner → Corner → Corner → Z → bool → Grid * Grid
}.

Section Tiles.
Context {geo : Geometry}.

Definition Corners : Type := Corner * Corner * Corner * Corner.

(** [Tile = namedtuple('Tile', 'pos corners increasing')]. *)
Record Tile : Type := mkTile {
  pos : Pos;
  corners : Corners;
  increasing : bool
}.

(** The table [level1]: one row of four corners per depth-1 tile. *)
Definition level1 : list Corners :=
  (fun row : (Z * Z) * (Z * Z) * (Z * Z) * (Z * Z) =>
     let '(a, b, c, d) := row in (radians a, radians b, radians c, radians d))
  <$> [ ((0, -90), (90, 0), (0, 90), (180, 0));
        ((90, 0), (0, -90), (0, 0), (0, 90));
        ((0, 90), (0, 0), (0, -90), (270, 0));
        ((180, 0), (0, 90), (270, 0), (0, -90)) ].

(** [level1[i]]; the table has four rows, and [i] is 0 to 3 at every use. *)
Definition level1_row (i : nat) : Corners :=
  let z := radians (0, 0) in
  default (z, z, z, z) (level1 !! i).

(** [_div4(tile)]: the four child tiles of a tile. *)
Definition _div4 (tile : Tile) : list Tile :=
  let '(n, x, y) := (n (pos tile), x (pos tile), y (pos tile)) in
  let '(ul, ur, lr, ll) := corners tile in
  let increasing := increasing tile in
  let to := mid ul ur in
  let ri := mid ur lr in
  let bo := mid lr ll in
  let le := mid ll ul in
  let ce := if increasing then mid ll ur else mid ul lr in
  let n := n + 1 in
  let x := x * 2 in
  let y := y * 2 in
  [ mkTile (mkPos n x y) (ul, to, ce, le) increasing;
    mkTile (mkPos n (x + 1) y) (to, ur, ri, ce) increasing;
    mkTile (mkPos n x (y + 1)) (le, ce, bo, ll) increasing;
    mkTile (mkPos n (x + 1) (y + 1)) (ce, ri, lr, bo) increasing ].

(** [nxy_tile_filter(layer, tx, ty)]: the closure [is_overlap].  A
    [ValueError] of [is_subtile] would leave the filter; it is [None]
    here, as is running out of fuel. *)
Definition nxy_tile_filter_result (layer tx ty : Z) (tile : Tile) : option bool :=
  let regionLoc := mkPos layer tx ty in
  let tileLoc := pos tile in
  if n tileLoc >? n regionLoc then Some true
  else
    match is_subtile regionLoc tileLoc with
    | Some (Returns b) => Some b
    | _ => None
    end.

Definition nxy_tile_filter (layer tx ty : Z) (tile : Tile) : bool :=
  default false (nxy_tile_filter_result layer tx ty tile).

(** [_postfix_corner(tile, depth, bottom_only, tile_filter)]: the tiles
    the generator yields, in order.  Every call descends one level, so the
    fuel bounds the number of levels; [None] only when it runs out. *)
Fixpoint postfix_corner_fuel (fuel : nat) (tile : Tile) (depth : Z)
  (bottom_only : bool) (tile_filter : Tile → bool) : option (list Tile) :=
  match fuel with
  | O => None
  | S fuel' =>
      let n := n (pos tile) in
      if n >? depth then Some []
      else if negb (tile_filter tile) then Some []
      else
        items ← mapM (fun child =>
                        postfix_corner_fuel fuel' child depth bottom_only tile_filter)
                     (_div4 tile);
        Some (concat items
              ++ (if (n =? depth) || negb bottom_only then [tile] else []))
  end.

Definition _postfix_corner (tile : Tile) (depth : Z) (bottom_only : bool)
  (tile_filter : Tile → bool) : list Tile :=
  default [] (postfix_corner_fuel (S (Z.to_nat (depth + 1 - n (pos tile))))
                                  tile depth bottom_only tile_filter).

(** [iter_corners(depth, bottom_only=True, tile_filter=None)]. *)
Definition iter_corners (depth : Z) (bottom_only : bool)
  (tile_filter : option (Tile → bool)) : list Tile :=
  let tile_filter := default (fun _ => true) tile_filter in
  let todo :=
    [ mkTile (mkPos 1 0 0) (level1_row 0) true;
      mkTile (mkPos 1 1 0) (level1_row 1) false;
      mkTile (mkPos 1 1 1) (level1_row 2) true;
      mkTile (mkPos 1 0 1) (level1_row 3) false ] in
  t ← todo; _postfix_corner t depth bottom_only tile_filter.

End Tiles.

(** ** Images

    Tile images are numpy arrays; "no data" is Python's [None], here the
    [None] of [option ndarray].  The pipeline uses the operations below
    and nothing else of numpy; each may raise where numpy does. *)

Class Numpy := {
  ndarray : Type;
  (** [a.shape] *)
  shape : ndarray → list nat;
  (** [np.zeros(shape, dtype=np.uint8)] *)
  zeros : list nat → ndarray;
  (** [np.hstack((a, b))] and [np.vstack((a, b))] *)
  hstack : ndarray → ndarray → outcome ndarray;
  vstack : ndarray → ndarray → outcome ndarray;
  (** [a[r::2, c::2]] *)
  stride2 : nat → nat → ndarray → outcome ndarray;
  (** [a / 4.] *)
  div4 : ndarray → ndarray;
  (** [a + b] *)
  add : ndarray → ndarray → outcome ndarray;
  (** [a.astype(m.dtype)], as a function of [a] and [m] *)
  astype_of : ndarray → ndarray → ndarray
}.

(** The file system as the run sees it: [read_png(path)], which raises
    when the file cannot be read, and [os.path.isfile(path)]. *)
Class FileSystem `{Numpy} := {
  read_png : string → outcome ndarray;
  isfile : string → bool
}.

Section Pipeline.
Context {geo : Geometry} {np : Numpy} {fs : FileSystem}.

(** What a generator of the pipeline yields: [(pth, img)]. *)
Definition item : Type := string * option ndarray.

(** The accumulator [parents = defaultdict(dict)]: for a parent position,
    the images of its children by quadrant code [(xc, yc)]. *)
Abbreviation Quadrants := (gmap (Z * Z) (option ndarray)).
Abbreviation Parents := (gmap Pos (gmap (Z * Z) (option ndarray))).

(** How a generator ends: exhausted, or left by an exception. *)
Inductive ending : Set :=
| Exhausted
| Raised (e : exn).

(** The argument [merge]: [True], [False], or a callable. *)
Inductive Merge : Type :=
| MergeBool (b : bool)
| MergeFn (f : ndarray → outcome (option ndarray)).

(** Python's truth value of [merge]. *)
Definition truthy (merge : Merge) : bool :=
  match merge with
  | MergeBool b => b
  | MergeFn _ => true
  end.

(** The argument [data_sampler]: a directory name or a function of the
    two coordinate grids. *)
Inductive Sampler : Type :=
| SamplerDir (d : string)
| SamplerFn (f : Grid → Grid → option ndarray).

(** [os.path.join('%i' % n, '%i' % y, '%i_%i.png' % (y, x))]. *)
Definition tile_path (n x y : Z) : string :=
  pretty n +:+ "/" +:+ pretty y +:+ "/" +:+ pretty y +:+ "_" +:+ pretty x +:+ ".png".

(** [_default_merge(mosaic)]: the four strided slices, each divided by
    [4.], added up and cast back to the type of [mosaic]. *)
Definition _default_merge (mosaic : ndarray) : outcome (option ndarray) :=
  a ←! stride2 0 0 mosaic;
  b ←! stride2 1 0 mosaic;
  c ←! stride2 0 1 mosaic;
  d ←! stride2 1 1 mosaic;
  ab ←! add (div4 a) (div4 b);
  abc ←! add ab (div4 c);
  abcd ←! add abc (div4 d);
  Returns (Some (astype_of abcd mosaic)).

(** [(merge or _default_merge)(mosaic)]; calling [True] is a [TypeError]. *)
Definition merge_or_default (merge : Merge) (mosaic : ndarray)
  : outcome (option ndarray) :=
  match merge with
  | MergeFn f => f mosaic
  | MergeBool true => Raises TypeError
  | MergeBool false => _default_merge mosaic
  end.

(** Lines 376-402 of [_trickle_up]: the parent image from the four
    quadrant images [ul, ur, bl, br]. *)
Definition parent_image (merge : Merge) (ul ur bl br : option ndarray)
  : outcome (option ndarray) :=
  if forallb (fun x => bool_decide (x = None)) [ul; ur; bl; br] then Returns None
  else
    match omap id [ul; ur; bl; br] with
    | [] => Raises IndexError
    | first :: _ =>
        let imgShape := shape first in
        if bool_decide (imgShape = []) then Returns None
        else
          let ul := default (zeros imgShape) ul in
          let ur := default (zeros imgShape) ur in
          let bl := default (zeros imgShape) bl in
          let br := default (zeros imgShape) br in
          match (upper ←! hstack ul ur;
                 lower ←! hstack bl br;
                 mosaic ←! vstack upper lower;
                 merge_or_default merge mosaic) with
          | Returns im => Returns im
          | Raises _ => Returns None
          end
    end.

(** [sum(len(v) for v in parents.values())]. *)
Definition nparent (parents : Parents) : Z :=
  map_fold (fun _ (v : Quadrants) acc => Z.of_nat (size v) + acc) 0 parents.

(** [_trickle_up(im, node, parents, merge, depth, top)]: the pairs it
    yields, the accumulator it leaves, and how it ends.  Every recursive
    call follows a [parents.pop], so the fuel bounds the number of
    accumulator entries; [None] only when it runs out. *)
Fixpoint trickle_up_fuel (fuel : nat) (im : option ndarray) (node : Pos)
  (parents : Parents) (merge : Merge) (depth top : Z)
  : option (list item * Parents * ending) :=
  match fuel with
  | O => None
  | S fuel' =>
      let '(n, x, y) := (n node, x node, y node) in
      let pth := tile_path n x y in
      if negb (nparent parents <=? 4 * Z.max depth 1) then
        Some ([], parents, Raised AssertionError)
      else
        let out := if depth >=? n then [(pth, im)] else [] in
        if n =? top then Some (out, parents, Exhausted)
        else if negb (truthy merge) && (n >? 1) then Some (out, parents, Exhausted)
        else
          let '(parent, xc, yc) := _parent node in
          let corners : Quadrants := <[(xc, yc) := im]> (default ∅ (parents !! parent)) in
          let parents : Parents := <[parent := corners]> parents in
          if Z.of_nat (size corners) <? 4 then Some (out, parents, Exhausted)
          else
            let parents : Parents := delete parent parents in
            match corners !! (0, 0), corners !! (1, 0),
                  corners !! (0, 1), corners !! (1, 1) with
            | Some ul, Some ur, Some bl, Some br =>
                match parent_image merge ul ur bl br with
                | Raises e => Some (out, parents, Raised e)
                | Returns im =>
                    '(out', parents', e) ←
                      trickle_up_fuel fuel' im parent parents merge depth top;
                    Some (out ++ out', parents', e)
                end
            | _, _, _, _ => Some (out, parents, Raised KeyError)
            end
  end.

Definition _trickle_up (im : option ndarray) (node : Pos) (parents : Parents)
  (merge : Merge) (depth top : Z) : list item * Parents * ending :=
  default ([], parents, Exhausted)
          (trickle_up_fuel (S (size parents)) im node parents merge depth top).

(** The three ways [iter_tiles] resolves the image of a tile (lines
    308-318): read it from the directory [data_sampler], skip it because
    the restart directory has it, or sample it. *)
Definition resolve_image (data_sampler : Sampler) (restart_dir : option string)
  (tile : Tile) : option ndarray :=
  let '(n, x, y) := (n (pos tile), x (pos tile), y (pos tile)) in
  match data_sampler with
  | SamplerDir d =>
      let img_dir := d +:+ "/" +:+ pretty n +:+ "/" in
      match read_png (img_dir +:+ pretty y +:+ "/" +:+ pretty y +:+ "_"
                      +:+ pretty x +:+ ".png") with
      | Returns img => Some img
      | Raises _ => None
      end
  | SamplerFn f =>
      match restart_dir with
      | Some r =>
          if negb (bool_decide (r = "")) &&
             isfile (r +:+ "/" +:+ pretty n +:+ "/" +:+ pretty y +:+ "/"
                     +:+ pretty y +:+ "_" +:+ pretty x +:+ ".png")
          then None
          else
            let '(ul, ur, lr, ll) := corners tile in
            let '(l, b) := subsample ul ur lr ll 256 (increasing tile) in
            f l b
      | None =>
          let '(ul, ur, lr, ll) := corners tile in
          let '(l, b) := subsample ul ur lr ll 256 (increasing tile) in
          f l b
      end
  end.

(** The body of the [for] loop of [iter_tiles], over the tiles the
    traversal yields. *)
Fixpoint iter_tiles_loop (tiles : list Tile) (data_sampler : Sampler)
  (depth : Z) (merge : Merge) (base_level_only : bool)
  (restart_dir : option string) (top : Z) (parents : Parents)
  : list item * Parents * ending :=
  match tiles with
  | [] => ([], parents, Exhausted)
  | tile :: rest =>
      let '(n, x, y) := (n (pos tile), x (pos tile), y (pos tile)) in
      let img := resolve_image data_sampler restart_dir tile in
      if bool_decide (img = None) && base_level_only then
        iter_tiles_loop rest data_sampler depth merge base_level_only
                        restart_dir top parents
      else if negb base_level_only then
        let '(out, parents, e) := _trickle_up img (pos tile) parents merge depth top in
        let out := filter (fun it : item => it.2 ≠ None) out in
        match e with
        | Raised _ => (out, parents, e)
        | Exhausted =>
            let '(out', parents, e) :=
              iter_tiles_loop rest data_sampler depth merge base_level_only
                              restart_dir top parents in
            (out ++ out', parents, e)
        end
      else
        let pth := tile_path n x y in
        let '(out', parents, e) :=
          iter_tiles_loop rest data_sampler depth merge base_level_only
                          restart_dir top parents in
        ((pth, img) :: out', parents, e)
  end.

(** [iter_tiles(data_sampler, depth, merge=True, base_level_only=False,
    tile_filter=None, restart_dir=None, top=0)]: the pairs it yields, the
    accumulator at the end, and how the generator ends. *)
Definition iter_tiles (data_sampler : Sampler) (depth : Z) (merge : Merge)
  (base_level_only : bool) (tile_filter : option (Tile → bool))
  (restart_dir : option string) (top : Z) : list item * Parents * ending :=
  let tile_filter := default (fun _ => true) tile_filter in
  let merge := match merge with
               | MergeBool true => MergeFn _default_merge
               | _ => merge
               end in
  let parents : Parents := ∅ in
  iter_tiles_loop (iter_corners (Z.max depth 1) (truthy merge) (Some tile_filter))
                  data_sampler depth merge base_level_only restart_dir top parents.

(** *** The parent image as the specification words it *)

(** The first of the quadrant images that is present. *)
Definition first_present (l : list (option ndarray)) : option ndarray :=
  head (omap id l).

(** The 2×2 mosaic of four images (top-left, top-right, bottom-left,
    bottom-right) with the merge function applied to it. *)
Definition merged_mosaic (merge : Merge) (ul ur bl br : ndarray)
  : outcome (option ndarray) :=
  upper ←! hstack ul ur;
  lower ←! hstack bl br;
  mosaic ←! vstack upper lower;
  merge_or_default merge mosaic.

(** The parent image in the words of the specification: "no data" when
    all four quadrants are; otherwise every absent quadrant becomes zeros
    of the shape of a present sibling, and the merge function is applied
    to the mosaic. *)
Definition claimed_parent_image (merge : Merge) (ul ur bl br : option ndarray)
  : outcome (option ndarray) :=
  match first_present [ul; ur; bl; br] with
  | None => Returns None
  | Some sibling =>
      let fill := default (zeros (shape sibling)) in
      merged_mosaic merge (fill ul) (fill ur) (fill bl) (fill br)
  end.

(** The same with the two guards of the code: a present sibling without
    dimensions, or a mosaic or merge that raises, gives "no data". *)
Definition guarded_parent_image (merge : Merge) (ul ur bl br : option ndarray)
  : option ndarray :=
  match first_present [ul; ur; bl; br] with
  | None => None
  | Some sibling =>
      match shape sibling with
      | [] => None
      | _ :: _ =>
          let fill := default (zeros (shape sibling)) in
          match merged_mosaic merge (fill ul) (fill ur) (fill bl) (fill br) with
          | Returns im => im
          | Raises _ => None
          end
      end
  end.

(** *** What a run yields, tile by tile *)

(** The pair [iter_tiles] yields for a tile when [base_level_only] is
    set: none when the tile has no data. *)
Definition base_item (s : Sampler) (rd : option string) (t : Tile) : option item :=
  img ← resolve_image s rd t;
  Some (tile_path (n (pos t)) (x (pos t)) (y (pos t)), Some img).


End Pipeline.

(** ** A concrete world to run the definitions in

    The theorems below hold for every implementation of the interfaces
    above.  To evaluate the pipeline on concrete inputs this module gives
    one: arrays with a shape and row-major data, a planar stand-in for the
    spherical geometry, and an empty file system. *)

Module Concrete.

Inductive dtype : Set := uint8 | float64.

(** An array: element [i] has the value [data[i] / 4^scale], which is
    exact for what [_default_merge] computes on [uint8] data (quarters of
    small integers). *)
Record array : Type := mkArray {
  dt : dtype;
  sh : list nat;
  scale : nat;
  data : list Z
}.

#[global] Instance dtype_eq_dec : EqDecision dtype.
Proof. solve_decision. Defined.

#[global] Instance array_eq_dec : EqDecision array.
Proof. solve_decision. Defined.

Definition promote (a b : dtype) : dtype :=
  match a, b with
  | uint8, uint8 => uint8
  | _, _ => float64
  end.

Definition nprod (s : list nat) : nat := foldr Nat.mul 1%nat s.

(** The data of [a] at the scale [k], for [k] at least [scale a]. *)
Definition rescale (k : nat) (a : array) : list Z :=
  (fun v => v * 4 ^ Z.of_nat (k - scale a)) <$> data a.

Definition wrap (d : dtype) (v : Z) : Z :=
  match d with
  | uint8 => v `mod` 256
  | float64 => v
  end.

(** [count] consecutive chunks of [k] elements. *)
Fixpoint chunks (count k : nat) (l : list Z) : list (list Z) :=
  match count with
  | O => []
  | S c => take k l :: chunks c k (drop k l)
  end.

Fixpoint every_other {A} (l : list A) : list A :=
  match l with
  | [] => []
  | a :: rest =>
      a :: match rest with
           | [] => []
           | _ :: rest' => every_other rest'
           end
  end.

Definition np_zeros (s : list nat) : array :=
  mkArray uint8 s 0 (replicate (nprod s) 0).

(** [np.concatenate((a, b), axis=0)] *)
Definition concat0 (a b : array) : outcome array :=
  match sh a, sh b with
  | ra :: ta, rb :: tb =>
      if bool_decide (ta = tb) then
        let k := Nat.max (scale a) (scale b) in
        Returns (mkArray (promote (dt a) (dt b)) ((ra + rb)%nat :: ta) k
                         (rescale k a ++ rescale k b))
      else Raises ValueError
  | _, _ => Raises ValueError
  end.

(** [np.concatenate((a, b), axis=1)] *)
Definition concat1 (a b : array) : outcome array :=
  match sh a, sh b with
  | ra :: ca :: ta, rb :: cb :: tb =>
      if bool_decide (ra = rb ∧ ta = tb) then
        let k := Nat.max (scale a) (scale b) in
        let p := nprod ta in
        Returns (mkArray (promote (dt a) (dt b)) (ra :: (ca + cb)%nat :: ta) k
                         (concat (zip_with app
                                    (chunks ra (ca * p) (rescale k a))
                                    (chunks rb (cb * p) (rescale k b)))))
      else Raises ValueError
  | _, _ => Raises ValueError
  end.

Definition atleast_1d (a : array) : array :=
  match sh a with
  | [] => mkArray (dt a) [1%nat] (scale a) (data a)
  | _ => a
  end.

Definition atleast_2d (a : array) : array :=
  match sh a with
  | [] => mkArray (dt a) [1%nat; 1%nat] (scale a) (data a)
  | [k] => mkArray (dt a) [1%nat; k] (scale a) (data a)
  | _ => a
  end.

Definition np_hstack (a b : array) : outcome array :=
  let a := atleast_1d a in
  let b := atleast_1d b in
  if bool_decide (length (sh a) = 1%nat) then concat0 a b else concat1 a b.

Definition np_vstack (a b : array) : outcome array :=
  concat0 (atleast_2d a) (atleast_2d b).

(** [a[r::2, c::2]]; an array of fewer than two dimensions has too many
    indices. *)
Definition np_stride2 (r c : nat) (a : array) : outcome array :=
  match sh a with
  | ra :: ca :: ta =>
      let p := nprod ta in
      let rows := every_other (drop r (chunks ra (ca * p) (data a))) in
      let cells : list (list (list Z)) :=
        (fun row => every_other (drop c (chunks ca p row))) <$> rows in
      Returns (mkArray (dt a)
                       (length rows :: length (every_other (drop c (seq 0 ca))) :: ta)
                       (scale a)
                       (concat ((fun cell => concat cell) <$> cells)))
  | _ => Raises IndexError
  end.

Definition np_div4 (a : array) : array :=
  mkArray float64 (sh a) (S (scale a)) (data a).

(** [a + b] for arrays of one shape; broadcasting between different
    shapes is outside this instance. *)
Definition np_add (a b : array) : outcome array :=
  if bool_decide (sh a = sh b) then
    let k := Nat.max (scale a) (scale b) in
    let d := promote (dt a) (dt b) in
    Returns (mkArray d (sh a) k
                     (zip_with (fun u v => wrap d (u + v)) (rescale k a) (rescale k b)))
  else Raises ValueError.

Definition np_astype_of (a m : array) : array :=
  match dt m with
  | uint8 =>
      mkArray uint8 (sh a) 0
              ((fun v => (v `quot` 4 ^ Z.of_nat (scale a)) `mod` 256) <$> data a)
  | float64 => mkArray float64 (sh a) (scale a) (data a)
  end.

#[global] Instance numpy : Numpy := {|
  ndarray := array;
  shape := sh;
  zeros := np_zeros;
  hstack := np_hstack;
  vstack := np_vstack;
  stride2 := np_stride2;
  div4 := np_div4;
  add := np_add;
  astype_of := np_astype_of
|}.

(** A file system without files. *)
#[global] Instance no_files : FileSystem := {|
  read_png := fun _ => Raises ValueError;
  isfile := fun _ => false
|}.

(** Planar geometry in units of 1/1024 degree; a grid is its one centre
    point. *)
#[global] Instance planar : Geometry := {|
  Corner := Z * Z;
  Grid := Z;
  radians := fun p => (1024 * p.1, 1024 * p.2);
  mid := fun a b => ((a.1 + b.1) `div` 2, (a.2 + b.2) `div` 2);
  subsample := fun ul ur lr ll _ _ =>
    ((ul.1 + ur.1 + lr.1 + ll.1) `div` 4, (ul.2 + ur.2 + lr.2 + ll.2) `div` 4)
|}.

(** A [uint8] image of the given rows. *)
Definition gray (rows : list (list Z)) : array :=
  mkArray uint8 [length rows; length (default [] (head rows))] 0 (concat rows).

(** A sampler that has an image everywhere. *)
Definition flat_sampler : Sampler :=
  SamplerFn (fun _ _ => Some (gray [[8; 8]; [8; 8]])).

(** A sampler that has no data anywhere. *)
Definition empty_sampler : Sampler := SamplerFn (fun _ _ => None).

(** A tile filter that drops the bottom-right child of every depth-1
    tile: [lambda t: not (t.pos.n == 2 and t.pos.x % 2 == 1 and
    t.pos.y % 2 == 1)]. *)
Definition drop_bottom_right (t : Tile) : bool :=
  negb ((n (pos t) =? 2) && (x (pos t) `mod` 2 =? 1) && (y (pos t) `mod` 2 =? 1)).

(** The image every tile of [flat_sampler] has. *)
Definition tile8 : array := gray [[8; 8]; [8; 8]].

(** An accumulator in which the root waits for its fourth quadrant, one of
    the three registered being "no data". *)
Definition three_quadrants : gmap Pos (gmap (Z * Z) (option array)) :=
  {[ mkPos 0 0 0 := {[ (0, 0) := Some tile8; (1, 0) := Some tile8; (0, 1) := None ]} ]}.

(** An accumulator in which the root waits for its fourth quadrant, the
    three registered all being images. *)
Definition three_tiles : gmap Pos (gmap (Z * Z) (option array)) :=
  {[ mkPos 0 0 0 := {[ (0, 0) := Some tile8; (1, 0) := Some tile8;
                       (0, 1) := Some tile8 ]} ]}.

(** A merge function that raises on every mosaic:
    [def merge(mosaic): raise ValueError]. *)
Definition failing_merge : Merge := MergeFn (fun _ => Raises ValueError).


End Concrete.

(** ** Vocabulary of the statements *)

(** The position at depth [j] above [p]: [p] after [n p - j] parent
    steps. *)
Definition ancestor (p : Pos) (j : Z) : Pos :=
  mkPos j (x p `div` 2 ^ (n p - j)) (y p `div` 2 ^ (n p - j)).

(** The position lies in the pyramid: [0 ≤ x, y < 2^n]. *)
Definition in_pyramid (p : Pos) : Prop :=
  0 ≤ x p < 2 ^ n p ∧ 0 ≤ y p < 2 ^ n p.

(** [a] is yielded before [b]. *)
Definition before {A} (l : list A) (a b : A) : Prop :=
  ∃ l1 l2 l3, l = l1 ++ a :: l2 ++ b :: l3.

(** The character occurs in the string. *)
Fixpoint has_char (c : ascii) (s : string) : bool :=
  match s with
  | EmptyString => false
  | String a s' => bool_decide (a = c) || has_char c s'
  end.

(** The path of the tile at a position. *)
Definition pos_path (p : Pos) : string := tile_path (n p) (x p) (y p).

Section StatementVocabulary.
Context {geo : Geometry} {np : Numpy} {fs : FileSystem}.

(** [u] is reached from [t] by subdividing, through tiles that all pass
    the filter, [t] and [u] included. *)
Inductive accepted_path (f : Tile → bool) : Tile → Tile → Prop :=
| accepted_here (t : Tile) : f t = true → accepted_path f t t
| accepted_below (t c u : Tile) :
    f t = true → c ∈ _div4 t → accepted_path f c u → accepted_path f t u.

(** The four depth-1 tiles [iter_corners] starts from. *)
Definition base_tiles : list Tile :=
  [ mkTile (mkPos 1 0 0) (level1_row 0) true;
    mkTile (mkPos 1 1 0) (level1_row 1) false;
    mkTile (mkPos 1 1 1) (level1_row 2) true;
    mkTile (mkPos 1 0 1) (level1_row 3) false ].

(** Every key of every accumulator entry is a quadrant code. *)
Definition quadrant_keys (parents : gmap Pos (gmap (Z * Z) (option ndarray))) : Prop :=
  ∀ p c a b, parents !! p = Some c → is_Some (c !! (a, b)) →
             0 ≤ a < 2 ∧ 0 ≤ b < 2.

(** The pair the reducer yields for a position and its image, when the
    position is not below [depth]. *)
Definition report (depth : Z) (p : Pos) (im : option ndarray) : list item :=
  if depth >=? n p then [(tile_path (n p) (x p) (y p), im)] else [].

(** The image of a tile [k] levels above the leaves of a merged run: what
    the tile resolves to at the leaves, and above them the parent image of
    the four children (in the order of [_div4]: top-left, top-right,
    bottom-left, bottom-right). *)
Fixpoint subtree_image (s : Sampler) (rd : option string) (merge : Merge)
  (k : nat) (t : Tile) : option ndarray :=
  match k with
  | O => resolve_image s rd t
  | S k' =>
      match subtree_image s rd merge k' <$> _div4 t with
      | [ul; ur; bl; br] => guarded_parent_image merge ul ur bl br
      | _ => None
      end
  end.

(** The pairs of a whole subtree, leaves first and the tile itself last. *)
Fixpoint subtree_items (s : Sampler) (rd : option string) (merge : Merge)
  (depth : Z) (k : nat) (t : Tile) : list item :=
  match k with
  | O => report depth (pos t) (resolve_image s rd t)
  | S k' =>
      (c ← _div4 t; subtree_items s rd merge depth k' c)
      ++ report depth (pos t) (subtree_image s rd merge (S k') t)
  end.

(** The pairs strictly below a tile. *)
Definition inner_items (s : Sampler) (rd : option string) (merge : Merge)
  (depth : Z) (k : nat) (t : Tile) : list item :=
  match k with
  | O => []
  | S k' => c ← _div4 t; subtree_items s rd merge depth k' c
  end.

(** The pair of a tile of a merged run over a pyramid of [D] levels. *)
Definition pyramid_item (s : Sampler) (rd : option string) (merge : Merge)
  (depth D : Z) (u : Tile) : list item :=
  report depth (pos u) (subtree_image s rd merge (Z.to_nat (D - n (pos u))) u).

(** The paths of a list of pairs come, in order, from the given
    positions. *)
Definition paths_from (l : list item) (ps : list Pos) : Prop :=
  l.*1 `sublist_of` pos_path <$> ps.

End StatementVocabulary.

(** * Properties *)

(** ** Tile counts *)

Lemma Zsum_app (l k : list Z) : Zsum (l ++ k) = Zsum l + Zsum k.
Proof. unfold Zsum. induction l as [|a l IH]; simpl; lia. Qed.

Lemma sum_pow4_succ (d : Z) : 0 ≤ d → sum_pow4 (d + 1) = sum_pow4 d + 4 ^ (d + 1).
Proof.
  intros Hd. unfold sum_pow4.
  replace (d + 1 + 1) with ((d + 1) + 1) by lia.
  rewrite (seqZ_app 0 (d + 1) 1) by lia.
  rewrite fmap_app, Zsum_app, Z.add_0_l.
  change (seqZ (d + 1) 1) with [d + 1].
  unfold Zsum at 2. simpl. lia.
Qed.

Lemma sum_pow4_geometric (d : Z) : 0 ≤ d → 3 * sum_pow4 d = 4 ^ (d + 1) - 1.
Proof.
  revert d. apply natlike_ind.
  - reflexivity.
  - intros d Hd IH. unfold Z.succ. rewrite sum_pow4_succ by done.
    rewrite (Z.pow_add_r 4 (d + 1) 1) by lia. lia.
Qed.

(** C8: for every depth [d ≥ 0], [depth2tiles(d)] is the sum of [4^i]
    for [i] from 0 to [d]; the division by 3 in the closed form
    [(4^(d+1) − 1) / 3] is exact; [depth2tiles] is 1, 5 and 21 at depths
    0, 1 and 2; and the functions of [toast.py] and [pyramid.py] agree. *)
Theorem depth2tiles_closed_form (d : Z) :
  0 ≤ d →
  depth2tiles d = sum_pow4 d
  ∧ 3 * depth2tiles d = 4 ^ (d + 1) - 1
  ∧ Pyramid.depth2tiles d = depth2tiles d
  ∧ depth2tiles 0 = 1 ∧ depth2tiles 1 = 5 ∧ depth2tiles 2 = 21.
Proof.
  intros Hd.
  assert (Hsum : depth2tiles d = sum_pow4 d).
  { unfold depth2tiles. rewrite <- (sum_pow4_geometric d Hd).
    rewrite Z.mul_comm. apply Z.div_mul. lia. }
  repeat split; try reflexivity; try done.
  rewrite Hsum. by apply sum_pow4_geometric.
Qed.

Lemma depth2tiles_closed_form_at_3 :
  depth2tiles 3 = 1 + 4 + 16 + 64 ∧ 3 * depth2tiles 3 = 4 ^ 4 - 1.
Proof.
  destruct (depth2tiles_closed_form 3 ltac:(lia)) as (Hs & Hc & _).
  split; [rewrite Hs; reflexivity | exact Hc].
Defined.

(** ** The position algebra *)

Lemma double_div2 (a : Z) : (a * 2) `div` 2 = a.
Proof. apply Z.div_mul. lia. Qed.

Lemma double_succ_div2 (a : Z) : (a * 2 + 1) `div` 2 = a.
Proof. rewrite Z.mul_comm. symmetry. apply (Z.div_unique _ 2 a 1); lia. Qed.

Lemma double_mod2 (a : Z) : (a * 2) `mod` 2 = 0.
Proof. apply Z.mod_mul. lia. Qed.

Lemma double_succ_mod2 (a : Z) : (a * 2 + 1) `mod` 2 = 1.
Proof. rewrite Z.mul_comm. symmetry. apply (Z.mod_unique _ 2 a 1); lia. Qed.

Lemma parent_of_child (d a b i j : Z) :
  0 ≤ i < 2 → 0 ≤ j < 2 →
  _parent (mkPos (d + 1) (a * 2 + i) (b * 2 + j)) = (mkPos d a b, i, j).
Proof.
  intros Hi Hj. unfold _parent. simpl.
  assert (Hdiv : ∀ c k, 0 ≤ k < 2 → (c * 2 + k) `div` 2 = c).
  { intros c k Hk. rewrite Z.mul_comm. symmetry. apply (Z.div_unique _ 2 c k); lia. }
  assert (Hmod : ∀ c k, 0 ≤ k < 2 → (c * 2 + k) `mod` 2 = k).
  { intros c k Hk. rewrite Z.mul_comm. symmetry. apply (Z.mod_unique _ 2 c k); lia. }
  rewrite !Hdiv, !Hmod by done. do 3 f_equal. lia.
Qed.

Section PositionAlgebra.
Context {geo : Geometry}.

(** C4: the parent of each of the four children of a position [p] is [p],
    with quadrant codes (0,0), (1,0), (0,1), (1,1) in the order the
    children are listed (top-left, top-right, bottom-left, bottom-right).
    For [pos_children] and [pos_parent] this needs [p.n ≥ 0], as
    [pos_parent] raises below depth 1; for the positions of [_div4] and
    [_parent] it holds for every tile at [p]. *)
Theorem children_parent_roundtrip (p : Pos) (c : Corners) (inc : bool) :
  (0 ≤ n p →
   Pyramid.pos_parent <$> Pyramid.pos_children p
   = [Returns (p, 0, 0); Returns (p, 1, 0); Returns (p, 0, 1); Returns (p, 1, 1)])
  ∧ (fun child => _parent (pos child)) <$> _div4 (mkTile p c inc)
    = [(p, 0, 0); (p, 1, 0); (p, 0, 1); (p, 1, 1)].
Proof.
  destruct p as [d a b]. destruct c as [[[ul ur] lr] ll]. split.
  - simpl. intros Hd. unfold Pyramid.pos_parent. simpl.
    destruct (Z.ltb_spec (d + 1) 1) as [Hlt | _]; [lia |].
    rewrite !double_div2, !double_succ_div2, !double_mod2, !double_succ_mod2.
    by replace (d + 1 - 1) with d by lia.
  - simpl.
    pose proof (parent_of_child d a b 0 0) as H00.
    pose proof (parent_of_child d a b 1 0) as H10.
    pose proof (parent_of_child d a b 0 1) as H01.
    pose proof (parent_of_child d a b 1 1) as H11.
    rewrite !Z.add_0_r in *.
    rewrite H00, H10, H01, H11 by lia. done.
Qed.

End PositionAlgebra.

Lemma children_parent_roundtrip_at_2_1_3 :
  Pyramid.pos_parent <$> Pyramid.pos_children (mkPos 2 1 3)
  = [Returns (mkPos 2 1 3, 0, 0); Returns (mkPos 2 1 3, 1, 0);
     Returns (mkPos 2 1 3, 0, 1); Returns (mkPos 2 1 3, 1, 1)].
Proof.
  apply (children_parent_roundtrip (geo := Concrete.planar) (mkPos 2 1 3)
           ((0, 0), (0, 0), (0, 0), (0, 0)) true).
  simpl. lia.
Defined.

(** C6 at the root: [pos_parent] of [pyramid.py] raises [ValueError],
    while [_parent] of [toast.py] returns a position of depth -1. *)
Theorem parent_of_depth0 :
  Pyramid.pos_parent (mkPos 0 0 0) = Raises ValueError
  ∧ _parent (mkPos 0 0 0) = (mkPos (-1) 0 0, 0, 0).
Proof. split; reflexivity. Qed.

(** ** Ancestors *)

Lemma div2_cases (v a : Z) : v `div` 2 = a ↔ v = a * 2 ∨ v = a * 2 + 1.
Proof.
  pose proof (Z.div_mod v 2 ltac:(lia)).
  pose proof (Z.mod_pos_bound v 2 ltac:(lia)).
  split.
  - intros <-. lia.
  - intros [-> | ->]; [apply double_div2 | apply double_succ_div2].
Qed.

Lemma div_pow2_step (v m d : Z) :
  m < d → v `div` 2 ^ (d - m) = (v `div` 2 ^ (d - (m + 1))) `div` 2.
Proof.
  intros Hm. replace (d - m) with ((d - (m + 1)) + 1) by lia.
  rewrite Z.pow_add_r by lia. rewrite Z.div_div; [done | | lia].
  apply Z.pow_nonzero; lia.
Qed.

Lemma ancestor_self (p : Pos) : ancestor p (n p) = p.
Proof.
  destruct p as [d a b]. unfold ancestor. simpl.
  by rewrite Z.sub_diag, !Z.div_1_r.
Qed.

Lemma ancestor_parent (p : Pos) (m : Z) :
  m < n p → ancestor p m = (_parent (ancestor p (m + 1))).1.1.
Proof.
  intros Hm. unfold ancestor, _parent. simpl.
  rewrite <- !div_pow2_step by done. f_equal. lia.
Qed.

(** The ancestor at depth [m] is [(m, a, b)] exactly when the ancestor one
    level below is one of the four children of [(m, a, b)]. *)
Lemma ancestor_child_iff (p : Pos) (m a b : Z) :
  m < n p →
  ancestor p m = mkPos m a b ↔
  ancestor p (m + 1) = mkPos (m + 1) (a * 2) (b * 2)
  ∨ ancestor p (m + 1) = mkPos (m + 1) (a * 2 + 1) (b * 2)
  ∨ ancestor p (m + 1) = mkPos (m + 1) (a * 2) (b * 2 + 1)
  ∨ ancestor p (m + 1) = mkPos (m + 1) (a * 2 + 1) (b * 2 + 1).
Proof.
  intros Hm. unfold ancestor.
  rewrite (div_pow2_step (x p)), (div_pow2_step (y p)) by done.
  set (u := x p `div` 2 ^ (n p - (m + 1))).
  set (v := y p `div` 2 ^ (n p - (m + 1))).
  pose proof (div2_cases u a) as Hu. pose proof (div2_cases v b) as Hv.
  split.
  - intros [= Ha Hb]. apply Hu in Ha. apply Hv in Hb.
    destruct Ha as [-> | ->], Hb as [-> | ->]; auto.
  - intros [Hc | [Hc | [Hc | Hc]]]; injection Hc as -> ->; f_equal;
      first [apply Hu | apply Hv]; auto.
Qed.

(** Climbing in two stages is climbing at once. *)
Lemma ancestor_ancestor (p : Pos) (i j : Z) :
  j ≤ i ≤ n p → ancestor (ancestor p i) j = ancestor p j.
Proof.
  intros Hij. unfold ancestor. simpl.
  assert (Hpow : ∀ v, (v `div` 2 ^ (n p - i)) `div` 2 ^ (i - j) = v `div` 2 ^ (n p - j)).
  { intros v. rewrite Z.div_div.
    - rewrite <- Z.pow_add_r by lia. do 2 f_equal. lia.
    - apply Z.pow_nonzero; lia.
    - apply Z.pow_pos_nonneg; lia. }
  by rewrite !Hpow.
Qed.

(** [is_subtile] climbs to the depth of the shallower position and
    compares. *)
Lemma is_subtile_fuel_spec (fuel : nat) (d s : Pos) :
  n s ≤ n d → (Z.to_nat (n d - n s) < fuel)%nat →
  is_subtile_fuel fuel d s = Some (Returns (bool_decide (ancestor d (n s) = s))).
Proof.
  revert d. induction fuel as [|fuel IH]; intros d Hn Hfuel; [lia |].
  simpl. destruct (Z.ltb_spec (n d) (n s)) as [Hlt | _]; [lia |].
  destruct (Z.eqb_spec (n d) (n s)) as [Heq | Hne].
  - rewrite <- Heq, ancestor_self. do 2 f_equal.
    destruct d as [dn dx dy], s as [sn sx sy]. simpl in *. subst sn.
    destruct (Z.eqb_spec dx sx) as [-> | Hx], (Z.eqb_spec dy sy) as [-> | Hy]; simpl;
      symmetry; first [by apply bool_decide_eq_true_2
                      | apply bool_decide_eq_false_2; congruence].
  - rewrite IH by (simpl; lia).
    assert (Hup : ancestor (_parent d).1.1 (n s) = ancestor d (n s)).
    { replace ((_parent d).1.1) with (ancestor d (n d - 1)).
      - apply ancestor_ancestor. lia.
      - rewrite ancestor_parent by lia.
        replace (n d - 1 + 1) with (n d) by lia. by rewrite ancestor_self. }
    simpl in Hup. by rewrite Hup.
Qed.

Lemma is_subtile_spec (d s : Pos) :
  n s ≤ n d → is_subtile d s = Some (Returns (bool_decide (ancestor d (n s) = s))).
Proof. intros Hn. apply is_subtile_fuel_spec; [done | lia]. Qed.

(** ** The traversal *)

Section Traversal.
Context {geo : Geometry}.

(** Fuel beyond the number of levels left changes nothing, and that much
    fuel is enough. *)
Lemma postfix_corner_fuel_enough (depth : Z) (bo : bool) (f : Tile → bool)
  (fuel : nat) (t : Tile) :
  (Z.to_nat (depth + 1 - n (pos t)) < fuel)%nat →
  postfix_corner_fuel fuel t depth bo f = Some (_postfix_corner t depth bo f).
Proof.
  revert t. induction fuel as [fuel IH] using lt_wf_ind. intros t Hfuel.
  destruct fuel as [|fuel]; [lia |].
  unfold _postfix_corner.
  remember (Z.to_nat (depth + 1 - n (pos t))) as k eqn:Hk. simpl.
  destruct (Z.gtb_spec (n (pos t)) depth) as [Hgt | Hle]; [done |].
  destruct (f t); simpl; [| done].
  destruct t as [[d a b] [[[ul ur] lr] ll] inc]. simpl in *.
  rewrite !(IH fuel) by (simpl; lia). rewrite !(IH k) by (simpl; lia). done.
Qed.

(** The generator, one level at a time. *)
Lemma postfix_corner_unfold (depth : Z) (bo : bool) (f : Tile → bool) (t : Tile) :
  _postfix_corner t depth bo f =
  if n (pos t) >? depth then []
  else if negb (f t) then []
  else (c ← _div4 t; _postfix_corner c depth bo f)
       ++ (if (n (pos t) =? depth) || negb bo then [t] else []).
Proof.
  unfold _postfix_corner at 1.
  set (k := Z.to_nat (depth + 1 - n (pos t))). simpl.
  destruct (Z.gtb_spec (n (pos t)) depth) as [Hgt | Hle]; [done |].
  destruct (f t); simpl; [| done].
  destruct t as [[d a b] [[[ul ur] lr] ll] inc]. simpl in *.
  rewrite !postfix_corner_fuel_enough by (simpl; lia).
  simpl. by rewrite !app_nil_r, <- !app_assoc.
Qed.

Lemma postfix_corner_below (depth : Z) (bo : bool) (f : Tile → bool) (t : Tile) :
  depth < n (pos t) → _postfix_corner t depth bo f = [].
Proof.
  intros Hn. rewrite postfix_corner_unfold.
  destruct (Z.gtb_spec (n (pos t)) depth); [done | lia].
Qed.

Lemma postfix_corner_leaf (depth : Z) (f : Tile → bool) (t : Tile) :
  n (pos t) = depth → _postfix_corner t depth true f = if f t then [t] else [].
Proof.
  intros Hn. rewrite postfix_corner_unfold.
  destruct (Z.gtb_spec (n (pos t)) depth); [lia |].
  destruct (f t); simpl; [| done].
  destruct t as [[d a b] [[[ul ur] lr] ll] inc]. simpl in *.
  rewrite !postfix_corner_below by (simpl; lia).
  simpl. by rewrite (proj2 (Z.eqb_eq d depth) Hn).
Qed.

Lemma postfix_corner_inner (depth : Z) (f : Tile → bool) (t : Tile) :
  n (pos t) < depth →
  _postfix_corner t depth true f =
  if f t then c ← _div4 t; _postfix_corner c depth true f else [].
Proof.
  intros Hn. rewrite postfix_corner_unfold.
  destruct (Z.gtb_spec (n (pos t)) depth); [lia |].
  destruct (f t); simpl; [| done].
  destruct (Z.eqb_spec (n (pos t)) depth); [lia |].
  simpl. by rewrite app_nil_r.
Qed.

(** The positions a bottom-only traversal yields below a tile, for a
    filter that only looks at the position: the depth-[D] positions under
    the tile whose whole chain of ancestors down from the tile passes the
    filter, each once. *)
Lemma postfix_positions (D : Z) (f : Tile → bool) (g : Pos → bool) :
  (∀ t, f t = g (pos t)) →
  ∀ (k : nat) (t : Tile), n (pos t) + Z.of_nat k = D →
    NoDup (pos <$> _postfix_corner t D true f)
    ∧ ∀ p, p ∈ pos <$> _postfix_corner t D true f ↔
           n p = D ∧ ancestor p (n (pos t)) = pos t
           ∧ ∀ j, n (pos t) ≤ j ≤ D → g (ancestor p j) = true.
Proof.
  intros Hfg k. induction k as [|k IH]; intros t Hk.
  - rewrite postfix_corner_leaf by lia. rewrite Hfg.
    assert (Hn : n (pos t) = D) by lia.
    destruct (g (pos t)) eqn:Hg; simpl.
    + split; [apply NoDup_singleton |]. intros p. rewrite list_elem_of_singleton.
      split.
      * intros ->. rewrite ancestor_self. repeat split; try done.
        intros j Hj. replace j with (n (pos t)) by lia. by rewrite ancestor_self.
      * intros (Hp & Ha & Hj). rewrite <- Ha, Hn, <- Hp. by rewrite ancestor_self.
    + split; [apply NoDup_nil_2 |]. intros p. rewrite elem_of_nil.
      split; [done |]. intros (Hp & Ha & Hj).
      assert (Hpt : p = pos t).
      { rewrite <- Ha, Hn, <- Hp. symmetry. apply ancestor_self. }
      specialize (Hj D ltac:(lia)). rewrite <- Hp, ancestor_self, Hpt in Hj.
      congruence.
  - rewrite postfix_corner_inner by lia. rewrite Hfg.
    destruct t as [[d a b] [[[ul ur] lr] ll] inc]. simpl in *.
    repeat match goal with
    | |- context [_postfix_corner ?c D true f] =>
        let Hc := fresh "Hc" in
        let Hm := fresh "Hm" in
        let l := fresh "l" in
        destruct (IH c ltac:(simpl; lia)) as [Hc Hm]; simpl in Hm;
        set (l := _postfix_corner c D true f) in *
    end.
    destruct (g (mkPos d a b)) eqn:Hg.
    + rewrite !fmap_app, fmap_nil, app_nil_r. split.
      * rewrite !NoDup_app. repeat split; try done;
          intros p Hp; rewrite ?elem_of_app; rewrite ?Hm, ?Hm0, ?Hm1, ?Hm2 in *;
          destruct Hp as (_ & Hp & _); rewrite Hp;
          intros Hq; repeat destruct Hq as [Hq | Hq];
          destruct Hq as (_ & [=] & _); lia.
      * intros p. rewrite !elem_of_app, Hm, Hm0, Hm1, Hm2. split.
        -- intros Hp.
           assert (Hn : n p = D) by (repeat destruct Hp as [Hp | Hp]; apply Hp).
           assert (Hj : ∀ j, d + 1 ≤ j ≤ D → g (ancestor p j) = true)
             by (repeat destruct Hp as [Hp | Hp]; apply Hp).
           assert (Ha : ancestor p d = mkPos d a b).
           { apply ancestor_child_iff; [lia |].
             repeat destruct Hp as [Hp | Hp]; destruct Hp as (_ & -> & _); auto. }
           repeat split; try done.
           intros j Hdj. destruct (decide (j = d)) as [-> | Hne].
           ++ by rewrite Ha.
           ++ apply Hj. lia.
        -- intros (Hn & Ha & Hj).
           apply ancestor_child_iff in Ha; [| lia].
           assert (Hj' : ∀ j, d + 1 ≤ j ≤ D → g (ancestor p j) = true)
             by (intros j Hdj; apply Hj; lia).
           destruct Ha as [Ha | [Ha | [Ha | Ha]]]; auto 10.
    + split; [apply NoDup_nil_2 |]. intros p. rewrite fmap_nil, elem_of_nil.
      split; [done |]. intros (Hp & Ha & Hj).
      specialize (Hj d ltac:(lia)). rewrite Ha in Hj. congruence.
Qed.

Lemma postfix_length (D : Z) (k : nat) (t : Tile) :
  n (pos t) + Z.of_nat k = D →
  length (_postfix_corner t D true (fun _ => true)) = (4 ^ k)%nat.
Proof.
  revert t. induction k as [|k IH]; intros t Hk.
  - by rewrite postfix_corner_leaf by lia.
  - rewrite postfix_corner_inner by lia.
    destruct t as [[d a b] [[[ul ur] lr] ll] inc]. simpl in *.
    rewrite !length_app, !IH by (simpl; lia). simpl. lia.
Qed.

Lemma root_child_iff (p : Pos) :
  0 < n p →
  in_pyramid p ↔
  ancestor p 1 = mkPos 1 0 0 ∨ ancestor p 1 = mkPos 1 1 0
  ∨ ancestor p 1 = mkPos 1 1 1 ∨ ancestor p 1 = mkPos 1 0 1.
Proof.
  intros Hn.
  pose proof (ancestor_child_iff p 0 0 0 Hn) as Hroot. simpl in Hroot.
  assert (Hpow : 0 < 2 ^ n p) by (apply Z.pow_pos_nonneg; lia).
  assert (Hin : in_pyramid p ↔ ancestor p 0 = mkPos 0 0 0).
  { unfold in_pyramid, ancestor. rewrite Z.sub_0_r. split.
    - intros [Hx Hy]. by rewrite !Z.div_small.
    - intros [= Hx Hy]. apply Z.div_small_iff in Hx, Hy; lia. }
  rewrite Hin, Hroot. tauto.
Qed.

Lemma iter_corners_positions (D : Z) (f : Tile → bool) (g : Pos → bool) :
  1 ≤ D → (∀ t, f t = g (pos t)) →
  NoDup (pos <$> iter_corners D true (Some f))
  ∧ ∀ p, p ∈ pos <$> iter_corners D true (Some f) ↔
         n p = D ∧ in_pyramid p ∧ ∀ j, 1 ≤ j ≤ D → g (ancestor p j) = true.
Proof.
  intros HD Hfg. unfold iter_corners. simpl.
  repeat match goal with
  | |- context [_postfix_corner ?c D true f] =>
      let Hc := fresh "Hc" in
      let Hm := fresh "Hm" in
      let l := fresh "l" in
      destruct (postfix_positions D f g Hfg (Z.to_nat (D - 1)) c ltac:(simpl; lia))
        as [Hc Hm]; simpl in Hm;
      set (l := _postfix_corner c D true f) in *
  end.
  rewrite !fmap_app, fmap_nil, app_nil_r. split.
  - rewrite !NoDup_app. repeat split; try done;
      intros p Hp; rewrite ?elem_of_app; rewrite ?Hm, ?Hm0, ?Hm1, ?Hm2 in *;
      destruct Hp as (_ & Hp & _); rewrite Hp;
      intros Hq; repeat destruct Hq as [Hq | Hq];
      destruct Hq as (_ & [=] & _).
  - intros p. rewrite !elem_of_app, Hm, Hm0, Hm1, Hm2. split.
    + intros Hp.
      assert (Hn : n p = D) by (repeat destruct Hp as [Hp | Hp]; apply Hp).
      assert (Hj : ∀ j, 1 ≤ j ≤ D → g (ancestor p j) = true)
        by (repeat destruct Hp as [Hp | Hp]; apply Hp).
      repeat split; try done; apply root_child_iff; try lia;
        repeat destruct Hp as [Hp | Hp]; destruct Hp as (_ & -> & _); auto.
    + intros (Hn & Hin & Hj).
      apply root_child_iff in Hin; [| lia].
      destruct Hin as [Ha | [Ha | [Ha | Ha]]]; auto 10.
Qed.


(** The sub-region filter never raises: it only asks [is_subtile] about a
    tile at most as deep as the region. *)
Lemma nxy_tile_filter_returns (r : Pos) (t : Tile) :
  nxy_tile_filter_result (n r) (x r) (y r) t
  = Some (if n (pos t) >? n r then true
          else bool_decide (ancestor r (n (pos t)) = pos t)).
Proof.
  unfold nxy_tile_filter_result. simpl.
  replace (mkPos (n r) (x r) (y r)) with r by (by destruct r).
  destruct (Z.gtb_spec (n (pos t)) (n r)) as [Hgt | Hle]; [done |].
  by rewrite is_subtile_spec by lia.
Qed.

(** C3 (amended): for every depth [D ≥ 1], [iter_corners(D,
    bottom_only=True)] without a filter yields exactly [4^D] tiles, every
    one of depth [D], no position twice, and the positions yielded are
    exactly the depth-[D] positions of the pyramid. *)
Theorem iter_corners_bottom_only (D : Z) :
  1 ≤ D →
  Z.of_nat (length (iter_corners D true None)) = 4 ^ D
  ∧ (∀ t, t ∈ iter_corners D true None → n (pos t) = D)
  ∧ NoDup (pos <$> iter_corners D true None)
  ∧ (∀ p, p ∈ pos <$> iter_corners D true None ↔ n p = D ∧ in_pyramid p).
Proof.
  intros HD.
  destruct (iter_corners_positions D (fun _ => true) (fun _ => true) HD ltac:(done))
    as [Hnodup Hmem].
  change (iter_corners D true (Some (fun _ => true))) with (iter_corners D true None) in *.
  assert (Hiff : ∀ p, p ∈ pos <$> iter_corners D true None ↔ n p = D ∧ in_pyramid p).
  { intros p. rewrite Hmem. split; [intros (? & ? & _); done | intros [? ?]; done]. }
  split; [| split; [| split]]; try done.
  - unfold iter_corners. simpl.
    rewrite !length_app, !(postfix_length D (Z.to_nat (D - 1))) by (simpl; lia).
    replace (4 ^ D) with (Z.of_nat (4 ^ S (Z.to_nat (D - 1)))).
    + simpl. lia.
    + rewrite Nat2Z.inj_pow. f_equal; lia.
  - intros t Ht. apply (Hiff (pos t)). apply list_elem_of_fmap. by exists t.
Qed.

(** C5: for a region [r] with [r.n ≥ 1] and a depth [D ≥ r.n], the
    bottom-only traversal filtered by [nxy_tile_filter(r.n, r.x, r.y)]
    yields tiles of depth [D] only, no position twice, and the positions
    yielded are exactly the depth-[D] positions of the pyramid that
    [is_subtile] finds under [r]. *)
Theorem nxy_filter_descendants (r : Pos) (D : Z) :
  1 ≤ n r → n r ≤ D →
  (∀ t, t ∈ iter_corners D true (Some (nxy_tile_filter (n r) (x r) (y r))) →
        n (pos t) = D)
  ∧ NoDup (pos <$> iter_corners D true (Some (nxy_tile_filter (n r) (x r) (y r))))
  ∧ (∀ p, p ∈ pos <$> iter_corners D true (Some (nxy_tile_filter (n r) (x r) (y r))) ↔
          n p = D ∧ in_pyramid p ∧ is_subtile p r = Some (Returns true)).
Proof.
  intros Hr HD.
  set (g := fun q : Pos =>
              if n q >? n r then true else bool_decide (ancestor r (n q) = q)).
  destruct (iter_corners_positions D (nxy_tile_filter (n r) (x r) (y r)) g
              ltac:(lia)) as [Hnodup Hmem].
  { intros t. unfold nxy_tile_filter. by rewrite nxy_tile_filter_returns. }
  assert (Hiff : ∀ p, p ∈ pos <$> iter_corners D true
                            (Some (nxy_tile_filter (n r) (x r) (y r))) ↔
                      n p = D ∧ in_pyramid p ∧ is_subtile p r = Some (Returns true)).
  { intros p. rewrite Hmem. split.
    - intros (Hn & Hin & Hj). repeat split; try done; try apply Hin.
      rewrite is_subtile_spec by lia. do 2 f_equal.
      specialize (Hj (n r) ltac:(lia)). unfold g in Hj. simpl in Hj.
      destruct (Z.gtb_spec (n r) (n r)); [lia |].
      apply bool_decide_eq_true_1 in Hj. rewrite ancestor_self in Hj.
      by apply bool_decide_eq_true_2.
    - intros (Hn & Hin & Hsub). repeat split; try done; try apply Hin.
      rewrite is_subtile_spec in Hsub by lia.
      injection Hsub as Hsub. apply bool_decide_eq_true_1 in Hsub.
      intros j Hj. unfold g. simpl.
      destruct (Z.gtb_spec j (n r)) as [Hgt | Hle]; [done |].
      apply bool_decide_eq_true_2.
      rewrite <- Hsub at 1. apply ancestor_ancestor. lia. }
  split; [| split]; try done.
  intros t Ht. apply (Hiff (pos t)). apply list_elem_of_fmap. by exists t.
Qed.

End Traversal.

(** ** The trickle-up reducer *)

Section Reducer.
Context {geo : Geometry} {np : Numpy} {fs : FileSystem}.

(** A registration that fills four quadrants found the entry there. *)
Lemma registered_entry_size (parents : gmap Pos (gmap (Z * Z) (option ndarray)))
  (parent : Pos) (q : Z * Z) (im : option ndarray) :
  ¬ (size (<[q := im]> (default ∅ (parents !! parent))) < 4)%nat →
  (size (delete parent (<[parent := <[q := im]> (default ∅ (parents !! parent))]> parents))
   < size parents)%nat.
Proof.
  intros Hsize. rewrite delete_insert_eq.
  destruct (parents !! parent) as [c |] eqn:Hc.
  - rewrite map_size_delete_Some by done.
    assert (size parents ≠ 0%nat).
    { intros Hz. apply map_size_empty_inv in Hz. subst. by rewrite lookup_empty in Hc. }
    lia.
  - simpl in Hsize. rewrite insert_empty, map_size_singleton in Hsize. lia.
Qed.

(** More fuel than accumulator entries is enough. *)
Lemma trickle_up_fuel_enough (merge : Merge) (depth top : Z) (fuel : nat)
  (im : option ndarray) (node : Pos) (parents : gmap Pos (gmap (Z * Z) (option ndarray))) :
  (size parents < fuel)%nat →
  trickle_up_fuel fuel im node parents merge depth top
  = Some (_trickle_up im node parents merge depth top).
Proof.
  revert im node parents.
  induction fuel as [fuel IH] using lt_wf_ind. intros im node parents Hfuel.
  destruct fuel as [|fuel]; [lia |].
  unfold _trickle_up.
  remember (size parents) as k eqn:Hk. simpl.
  destruct (nparent parents <=? 4 * Z.max depth 1); simpl; [| done].
  destruct (n node =? top); [done |].
  destruct (negb (truthy merge) && (n node >? 1)); [done |].
  set (parent := mkPos (n node - 1) (x node `div` 2) (y node `div` 2)).
  set (q := (x node `mod` 2, y node `mod` 2)).
  destruct (Z.ltb_spec (Z.of_nat (size (<[q := im]> (default ∅ (parents !! parent))))) 4)
    as [Hlt | Hge]; [done |].
  pose proof (registered_entry_size parents parent q im ltac:(lia)) as Hsize.
  repeat match goal with
  | |- context [match ?m !! ?i with _ => _ end] => destruct (m !! i); try done
  end.
  destruct (parent_image merge _ _ _ _); [| done].
  rewrite (IH fuel) by lia. rewrite (IH k) by lia. simpl.
  by destruct (_trickle_up _ _ _ _ _ _) as [[? ?] ?].
Qed.


(** The reducer, one call at a time. *)
Lemma trickle_up_unfold (im : option ndarray) (node : Pos)
  (parents : gmap Pos (gmap (Z * Z) (option ndarray))) (merge : Merge) (depth top : Z) :
  _trickle_up im node parents merge depth top =
  let out := if depth >=? n node
             then [(tile_path (n node) (x node) (y node), im)] else [] in
  if negb (nparent parents <=? 4 * Z.max depth 1) then
    ([], parents, Raised AssertionError)
  else if n node =? top then (out, parents, Exhausted)
  else if negb (truthy merge) && (n node >? 1) then (out, parents, Exhausted)
  else
    let parent := (_parent node).1.1 in
    let q := ((_parent node).1.2, (_parent node).2) in
    let corners := <[q := im]> (default ∅ (parents !! parent)) in
    if Z.of_nat (size corners) <? 4 then
      (out, <[parent := corners]> parents, Exhausted)
    else
      match corners !! (0, 0), corners !! (1, 0),
            corners !! (0, 1), corners !! (1, 1) with
      | Some ul, Some ur, Some bl, Some br =>
          match parent_image merge ul ur bl br with
          | Raises e => (out, delete parent parents, Raised e)
          | Returns im' =>
              let '(out', parents', e) :=
                _trickle_up im' parent (delete parent parents) merge depth top in
              (out ++ out', parents', e)
          end
      | _, _, _, _ => (out, delete parent parents, Raised KeyError)
      end.
Proof.
  unfold _trickle_up at 1. simpl.
  destruct (nparent parents <=? 4 * Z.max depth 1); simpl; [| done].
  destruct (n node =? top); [done |].
  destruct (negb (truthy merge) && (n node >? 1)); [done |].
  set (parent := mkPos (n node - 1) (x node `div` 2) (y node `div` 2)).
  set (q := (x node `mod` 2, y node `mod` 2)).
  destruct (Z.ltb_spec (Z.of_nat (size (<[q := im]> (default ∅ (parents !! parent))))) 4)
    as [Hlt | Hge]; [done |].
  pose proof (registered_entry_size parents parent q im ltac:(lia)) as Hsize.
  rewrite delete_insert_eq in *.
  repeat match goal with
  | |- context [match ?m !! ?i with _ => _ end] => destruct (m !! i); try done
  end.
  destruct (parent_image merge _ _ _ _); [| done].
  rewrite trickle_up_fuel_enough by lia. simpl.
  by destruct (_trickle_up _ _ _ _ _ _) as [[? ?] ?].
Qed.


(** The code of the parent image against its description: the code never
    raises, and returns the guarded parent image. *)
Lemma parent_image_guarded (merge : Merge) (ul ur bl br : option ndarray) :
  parent_image merge ul ur bl br = Returns (guarded_parent_image merge ul ur bl br).
Proof.
  unfold parent_image, guarded_parent_image, first_present, merged_mosaic.
  destruct ul as [ul |], ur as [ur |], bl as [bl |], br as [br |]; simpl; try done;
    match goal with
    | |- context [shape ?a] => destruct (shape a) eqn:Hs; simpl; try done
    end;
    match goal with
    | |- context [obind ?k ?o] => by destruct (obind k o)
    end.
Qed.

Lemma four_quadrants_size {A} (m : gmap (Z * Z) A) :
  is_Some (m !! (0, 0)) → is_Some (m !! (1, 0)) →
  is_Some (m !! (0, 1)) → is_Some (m !! (1, 1)) → (4 ≤ size m)%nat.
Proof.
  intros H00 H10 H01 H11.
  assert (Hsub : ({[ (0, 0); (1, 0); (0, 1); (1, 1) ]} : gset (Z * Z)) ⊆ dom m).
  { intros k Hk. apply elem_of_dom.
    rewrite !elem_of_union, !elem_of_singleton in Hk.
    destruct Hk as [[[-> | ->] | ->] | ->]; done. }
  apply subseteq_size in Hsub. rewrite size_dom in Hsub.
  etrans; [| exact Hsub]. by vm_compute.
Qed.

(** The fourth registration: the entry leaves the accumulator, and the
    reducer goes on with the parent image at the parent. *)
Lemma trickle_up_complete (im : option ndarray) (node : Pos)
  (parents : gmap Pos (gmap (Z * Z) (option ndarray))) (merge : Merge) (depth top : Z)
  (ul ur bl br : option ndarray) :
  nparent parents ≤ 4 * Z.max depth 1 →
  n node ≠ top →
  truthy merge = true ∨ n node ≤ 1 →
  let parent := (_parent node).1.1 in
  let q := ((_parent node).1.2, (_parent node).2) in
  let corners := <[q := im]> (default ∅ (parents !! parent)) in
  corners !! (0, 0) = Some ul → corners !! (1, 0) = Some ur →
  corners !! (0, 1) = Some bl → corners !! (1, 1) = Some br →
  _trickle_up im node parents merge depth top =
  let '(out', parents', e) :=
    _trickle_up (guarded_parent_image merge ul ur bl br) parent
                (delete parent parents) merge depth top in
  ((if depth >=? n node then [(tile_path (n node) (x node) (y node), im)] else [])
   ++ out', parents', e).
Proof.
  intros Hbound Htop Hmerge parent q corners Hul Hur Hbl Hbr.
  rewrite trickle_up_unfold. subst parent q corners. cbv zeta in *.
  destruct (Z.leb_spec (nparent parents) (4 * Z.max depth 1)) as [_ | Hgt]; [| lia].
  destruct (Z.eqb_spec (n node) top) as [Heq | _]; [done |].
  assert (Hgo : negb (truthy merge) && (n node >? 1) = false).
  { destruct Hmerge as [-> | Hn]; [done |].
    destruct (Z.gtb_spec (n node) 1); [lia |]. apply andb_false_r. }
  rewrite Hgo. simpl in *.
  match goal with
  | |- context [Z.of_nat (size ?c) <? 4] =>
      assert (Hsize : (4 ≤ size c)%nat) by (apply four_quadrants_size; by eexists);
      destruct (Z.ltb_spec (Z.of_nat (size c)) 4) as [Hlt | _]; [lia |]
  end.
  by rewrite Hul, Hur, Hbl, Hbr, parent_image_guarded.
Qed.

(** For quadrant images that have at least one dimension, the guarded
    parent image is the one the claim describes, with "no data" where
    the mosaic or the merge function raises. *)
Lemma guarded_parent_image_claimed (merge : Merge) (ul ur bl br : option ndarray) :
  (∀ a, a ∈ omap id [ul; ur; bl; br] → shape a ≠ []) →
  guarded_parent_image merge ul ur bl br
  = match claimed_parent_image merge ul ur bl br with
    | Returns parent_im => parent_im
    | Raises _ => None
    end.
Proof.
  intros Hshape. unfold guarded_parent_image, claimed_parent_image, first_present.
  destruct (head (omap id [ul; ur; bl; br])) as [sibling |] eqn:Hhead; [| done].
  assert (Hs : shape sibling ≠ []) by (by apply Hshape, head_Some_elem_of).
  by destruct (shape sibling).
Qed.

(** C1 (amended): when the image registered for a node fills the fourth
    quadrant of its parent (the assertion holds, the node is not at [top],
    and merging is on or the node is at depth 1 or above), and the
    quadrant images present are arrays of at least one dimension, as tile
    images are, the reducer reports the node, removes the entry from the
    accumulator and goes on with [(parent_image, parent)].  The parent
    image is "no data" when all four quadrants are; otherwise the merge
    function (the default merge when [merge] is [False]) is applied to the
    2×2 mosaic (top-left, top-right, bottom-left, bottom-right) of the
    quadrants, absent ones replaced by zeros of the shape of the first
    present one; and where building the mosaic or the merge function
    raises, the exception is caught and the parent image is "no data". *)
Theorem trickle_up_fourth_quadrant (im : option ndarray) (node : Pos)
  (parents : gmap Pos (gmap (Z * Z) (option ndarray))) (merge : Merge) (depth top : Z)
  (ul ur bl br : option ndarray) :
  nparent parents ≤ 4 * Z.max depth 1 →
  n node ≠ top →
  truthy merge = true ∨ n node ≤ 1 →
  let parent := (_parent node).1.1 in
  let q := ((_parent node).1.2, (_parent node).2) in
  let corners := <[q := im]> (default ∅ (parents !! parent)) in
  corners !! (0, 0) = Some ul → corners !! (1, 0) = Some ur →
  corners !! (0, 1) = Some bl → corners !! (1, 1) = Some br →
  (∀ a, a ∈ omap id [ul; ur; bl; br] → shape a ≠ []) →
  _trickle_up im node parents merge depth top =
  let parent_image :=
    match claimed_parent_image merge ul ur bl br with
    | Returns parent_im => parent_im
    | Raises _ => None
    end in
  let '(out', parents', e) :=
    _trickle_up parent_image parent (delete parent parents) merge depth top in
  ((if depth >=? n node then [(tile_path (n node) (x node) (y node), im)] else [])
   ++ out', parents', e).
Proof.
  intros Hbound Htop Hmerge parent q corners Hul Hur Hbl Hbr Hshape. cbv zeta.
  rewrite <- (guarded_parent_image_claimed merge ul ur bl br Hshape).
  by apply trickle_up_complete.
Qed.

End Reducer.

(** ** Runs of [iter_tiles] *)

Section Runs.
Context {geo : Geometry} {np : Numpy} {fs : FileSystem}.

Lemma iter_tiles_unfold (s : Sampler) (depth : Z) (merge : Merge) (blo : bool)
  (f : option (Tile → bool)) (rd : option string) (top : Z) :
  iter_tiles s depth merge blo f rd top =
  iter_tiles_loop (iter_corners (Z.max depth 1) (truthy merge) f) s depth
    (match merge with MergeBool true => MergeFn _default_merge | _ => merge end)
    blo rd top ∅.
Proof.
  unfold iter_tiles.
  replace (truthy match merge with MergeBool true => MergeFn _default_merge | _ => merge end)
    with (truthy merge) by (by destruct merge as [[|] | ?]).
  by destruct f.
Qed.

Lemma base_level_loop (s : Sampler) (depth : Z) (merge : Merge)
  (rd : option string) (top : Z) (tiles : list Tile)
  (parents : gmap Pos (gmap (Z * Z) (option ndarray))) :
  iter_tiles_loop tiles s depth merge true rd top parents
  = (omap (base_item s rd) tiles, parents, Exhausted).
Proof.
  induction tiles as [|t tiles IH]; [done |].
  simpl. unfold base_item at 1.
  destruct (resolve_image s rd t) as [img |] eqn:Himg; simpl.
  - by rewrite IH.
  - by rewrite IH.
Qed.

(** C7 (amended): when [base_level_only] is set, [iter_tiles] yields
    [(path(pos), image)] for exactly the tiles of the traversal whose
    image is not "no data", in traversal order; a tile without data is
    skipped and nothing is yielded for it; the accumulator stays empty and
    the assertion of the reducer is never reached. *)
Theorem base_level_only_skips_no_data (s : Sampler) (depth : Z) (merge : Merge)
  (f : option (Tile → bool)) (rd : option string) (top : Z) :
  iter_tiles s depth merge true f rd top
  = (omap (base_item s rd) (iter_corners (Z.max depth 1) (truthy merge) f),
     ∅, Exhausted).
Proof. rewrite iter_tiles_unfold. apply base_level_loop. Qed.

Lemma merge_loop_has_data (s : Sampler) (depth : Z) (merge : Merge)
  (rd : option string) (top : Z) (it : item) (tiles : list Tile)
  (parents : gmap Pos (gmap (Z * Z) (option ndarray))) :
  it ∈ (iter_tiles_loop tiles s depth merge false rd top parents).1.1 →
  it.2 ≠ None.
Proof.
  revert parents. induction tiles as [|t tiles IH]; intros parents.
  - simpl. by intros ?%elem_of_nil.
  - simpl. rewrite andb_false_r. simpl.
    destruct (_trickle_up _ _ _ _ _ _) as [[out parents'] e].
    destruct e as [| e]; simpl.
    + specialize (IH parents').
      destruct (iter_tiles_loop tiles s depth merge false rd top parents')
        as [[out' parents''] e']. simpl in *.
      rewrite elem_of_app. intros [Hin | Hin]; [| by apply IH].
      by apply list_elem_of_filter in Hin as [? _].
    + intros Hin. by apply list_elem_of_filter in Hin as [? _].
Qed.

(** C9: when [base_level_only] is false, no pair that [iter_tiles] yields
    has the "no data" image. *)
Theorem merged_items_have_data (s : Sampler) (depth : Z) (merge : Merge)
  (f : option (Tile → bool)) (rd : option string) (top : Z) (it : item) :
  it ∈ (iter_tiles s depth merge false f rd top).1.1 → it.2 ≠ None.
Proof. rewrite iter_tiles_unfold. apply merge_loop_has_data. Qed.


(** The loop over two stretches of tiles: the second runs in the
    accumulator the first leaves, unless the first raised. *)
Lemma iter_tiles_loop_app (s : Sampler) (depth : Z) (merge : Merge) (blo : bool)
  (rd : option string) (top : Z) (l1 l2 : list Tile)
  (parents : gmap Pos (gmap (Z * Z) (option ndarray))) :
  iter_tiles_loop (l1 ++ l2) s depth merge blo rd top parents =
  let '(o1, p1, e1) := iter_tiles_loop l1 s depth merge blo rd top parents in
  match e1 with
  | Raised _ => (o1, p1, e1)
  | Exhausted =>
      let '(o2, p2, e2) := iter_tiles_loop l2 s depth merge blo rd top p1 in
      (o1 ++ o2, p2, e2)
  end.
Proof.
  revert parents. induction l1 as [|t l1 IH]; intros parents.
  - simpl. by destruct (iter_tiles_loop l2 _ _ _ _ _ _ _) as [[? ?] ?].
  - simpl. destruct (bool_decide _ && blo); [apply IH |].
    destruct blo; simpl.
    + rewrite IH.
      destruct (iter_tiles_loop l1 _ _ _ _ _ _ _) as [[o1 p1] [| e1]]; [| done].
      by destruct (iter_tiles_loop l2 _ _ _ _ _ _ _) as [[? ?] ?].
    + destruct (_trickle_up _ _ _ _ _ _) as [[o p] [| e]]; [| done].
      rewrite IH.
      destruct (iter_tiles_loop l1 _ _ _ _ _ _ _) as [[o1 p1] [| e1]]; [| done].
      destruct (iter_tiles_loop l2 _ _ _ _ _ _ _) as [[? ?] ?].
      by rewrite app_assoc.
Qed.

Section MergeDisabled.
Variables (s : Sampler) (depth : Z) (rd : option string) (top : Z).










End MergeDisabled.
End Runs.

(** ** The statements at concrete inputs *)

(** C3 as stated fails at depth 0: the traversal starts at the four
    depth-1 tiles and yields nothing, not [4^0] tiles. *)
Lemma iter_corners_depth0_empty :
  iter_corners (geo := Concrete.planar) 0 true None = []
  ∧ Z.of_nat (length (iter_corners (geo := Concrete.planar) 0 true None)) ≠ 4 ^ 0.
Proof. split; [reflexivity | by vm_compute]. Qed.

Lemma iter_corners_bottom_only_at_2 :
  Z.of_nat (length (iter_corners (geo := Concrete.planar) 2 true None)) = 4 ^ 2
  ∧ (∀ t, t ∈ iter_corners (geo := Concrete.planar) 2 true None → n (pos t) = 2)
  ∧ NoDup (pos <$> iter_corners (geo := Concrete.planar) 2 true None)
  ∧ (∀ p, p ∈ pos <$> iter_corners (geo := Concrete.planar) 2 true None
          ↔ n p = 2 ∧ in_pyramid p).
Proof. apply (iter_corners_bottom_only (geo := Concrete.planar) 2). lia. Defined.

Lemma nxy_filter_descendants_at_2_1_2 :
  let tiles := iter_corners (geo := Concrete.planar) 3 true
                 (Some (nxy_tile_filter 2 1 2)) in
  (∀ t, t ∈ tiles → n (pos t) = 3)
  ∧ NoDup (pos <$> tiles)
  ∧ (∀ p, p ∈ pos <$> tiles ↔
          n p = 3 ∧ in_pyramid p ∧ is_subtile p (mkPos 2 1 2) = Some (Returns true)).
Proof.
  apply (nxy_filter_descendants (geo := Concrete.planar) (mkPos 2 1 2) 3); simpl; lia.
Defined.

(** C1 as stated fails for a merge function that raises: on four
    2×2 images the procedure of the claim applies the merge function,
    which raises; the code catches the exception, takes "no data" as the
    root image and goes on: the root is reported with "no data" and the
    run of the reducer ends normally. *)
Lemma raising_merge_parent_is_no_data :
  _trickle_up (Some Concrete.tile8) (mkPos 1 1 1) Concrete.three_tiles
    Concrete.failing_merge 1 0
  = ([("1/1/1_1.png", Some Concrete.tile8); ("0/0/0_0.png", None)], ∅, Exhausted)
  ∧ parent_image Concrete.failing_merge
      (Some Concrete.tile8) (Some Concrete.tile8)
      (Some Concrete.tile8) (Some Concrete.tile8)
    = Returns None
  ∧ claimed_parent_image Concrete.failing_merge
      (Some Concrete.tile8) (Some Concrete.tile8)
      (Some Concrete.tile8) (Some Concrete.tile8)
    = Raises ValueError
  ∧ parent_image Concrete.failing_merge
      (Some Concrete.tile8) (Some Concrete.tile8)
      (Some Concrete.tile8) (Some Concrete.tile8)
    ≠ claimed_parent_image Concrete.failing_merge
        (Some Concrete.tile8) (Some Concrete.tile8)
        (Some Concrete.tile8) (Some Concrete.tile8).
Proof. repeat split; by vm_compute. Qed.

Lemma trickle_up_fourth_quadrant_at_root :
  _trickle_up (Some Concrete.tile8) (mkPos 1 1 1) Concrete.three_quadrants
    (MergeFn _default_merge) 1 0
  = ([("1/1/1_1.png", Some Concrete.tile8);
      ("0/0/0_0.png", Some (Concrete.gray [[8; 8]; [0; 8]]))], ∅, Exhausted).
Proof.
  rewrite (trickle_up_fourth_quadrant (np := Concrete.numpy)
             (Some Concrete.tile8) (mkPos 1 1 1) Concrete.three_quadrants
             (MergeFn _default_merge) 1 0
             (Some Concrete.tile8) (Some Concrete.tile8) None (Some Concrete.tile8));
    [by vm_compute | by vm_compute | done | by left | by vm_compute .. |].
  intros a Ha. simpl in Ha. rewrite !elem_of_cons, elem_of_nil in Ha.
  by destruct Ha as [-> | [-> | [-> | []]]].
Defined.

(** C2 at a failing input: depth 2, the default merge, and a filter that
    drops the bottom-right child of every depth-1 tile.  No parent ever
    completes, nine images are buffered when the tenth tile arrives, the
    bound is 8, and the assertion of the reducer fails after nine pairs
    have been yielded. *)
Theorem accumulator_bound_fails :
  let run := iter_tiles Concrete.flat_sampler 2 (MergeBool true) false
               (Some Concrete.drop_bottom_right) None 0 in
  run.2 = Raised AssertionError
  ∧ length run.1.1 = 9%nat
  ∧ nparent run.1.2 = 9
  ∧ 4 * Z.max 2 1 = 8.
Proof. by vm_compute. Qed.

(** C7 as stated fails: with [base_level_only] set and a sampler without
    data, the four depth-1 tiles are resolved, each to "no data", and no
    pair is yielded. *)
Lemma base_level_only_yields_nothing :
  iter_tiles Concrete.empty_sampler 1 (MergeBool true) true None None 0
  = ([], ∅, Exhausted)
  ∧ length (iter_corners (geo := Concrete.planar) 1 true None) = 4%nat
  ∧ (∀ t, resolve_image Concrete.empty_sampler None t = None)
  ∧ ¬ ∃ pth, (pth, None)
             ∈ (iter_tiles Concrete.empty_sampler 1 (MergeBool true) true
                  None None 0).1.1.
Proof.
  split; [by vm_compute | split; [by vm_compute | split]].
  - by intros [? [[[? ?] ?] ?] ?].
  - intros [pth Hin]. vm_compute in Hin. by apply elem_of_nil in Hin.
Qed.

Lemma merged_items_have_data_at_depth1 :
  ("1/0/0_0.png", Some Concrete.tile8)
  ∈ (iter_tiles Concrete.flat_sampler 1 (MergeBool true) false None None 0).1.1
  ∧ Some Concrete.tile8 ≠ None.
Proof.
  assert (Hin : ("1/0/0_0.png", Some Concrete.tile8)
                ∈ (iter_tiles Concrete.flat_sampler 1 (MergeBool true) false
                     None None 0).1.1) by (vm_compute; left).
  split; [exact Hin |].
  exact (merged_items_have_data (np := Concrete.numpy) _ _ _ _ _ _ _ Hin).
Defined.

(** The default merge of one 2×2 block of [uint8] pixels is the mean of
    the four pixels, rounded down. *)
Lemma default_merge_block_average (a b c d : Z) :
  0 ≤ a ≤ 255 → 0 ≤ b ≤ 255 → 0 ≤ c ≤ 255 → 0 ≤ d ≤ 255 →
  _default_merge (Concrete.gray [[a; b]; [c; d]])
  = Returns (Some (Concrete.gray [[(a + b + c + d) `div` 4]])).
Proof.
  intros Ha Hb Hc Hd.
  unfold _default_merge, Concrete.gray. cbn.
  unfold Concrete.np_add, Concrete.np_div4, Concrete.rescale. cbn.
  repeat (rewrite bool_decide_eq_true_2 by done; cbn).
  do 3 f_equal.
  change (4 ^ Z.of_nat 0) with 1. change (4 ^ Z.of_nat 1) with 4.
  rewrite !Z.mul_1_r.
  rewrite Z.quot_div_nonneg by lia.
  replace (a + c + b + d) with (a + b + c + d) by lia.
  rewrite Z.mod_small; [done |].
  split; [apply Z.div_pos; lia | apply Z.div_lt_upper_bound; lia].
Qed.



(** * Further properties

    ** [toasty.pyramid] *)

Lemma next_power_loop_spec (fuel : nat) (k : nat) (m : Z) :
  m ≤ 256 * 2 ^ (Z.of_nat k + Z.of_nat fuel - 1) →
  (0 < fuel)%nat →
  (k = 0%nat ∨ 256 * 2 ^ (Z.of_nat k - 1) < m) →
  ∃ j : nat, Pyramid.next_power_loop fuel (256 * 2 ^ Z.of_nat k) m = Some (256 * 2 ^ Z.of_nat j)
             ∧ m ≤ 256 * 2 ^ Z.of_nat j
             ∧ (j = 0%nat ∨ 256 * 2 ^ (Z.of_nat j - 1) < m).
Proof.
  revert k. induction fuel as [|fuel IH]; intros k Hbig Hpos Hmin; [lia |].
  simpl. destruct (Z.ltb_spec (256 * 2 ^ Z.of_nat k) m) as [Hlt | Hge].
  - destruct fuel as [|fuel].
    { replace (Z.of_nat k + Z.of_nat 1 - 1) with (Z.of_nat k) in Hbig by lia. lia. }
    replace (256 * 2 ^ Z.of_nat k * 2) with (256 * 2 ^ Z.of_nat (S k)).
    + apply IH; [| lia |].
      * replace (Z.of_nat (S k) + Z.of_nat (S fuel) - 1)
          with (Z.of_nat k + Z.of_nat (S (S fuel)) - 1) by lia. done.
      * right. by replace (Z.of_nat (S k) - 1) with (Z.of_nat k) by lia.
    + rewrite Nat2Z.inj_succ, Z.pow_succ_r by lia. lia.
  - exists k. auto.
Qed.

(** X1: [next_highest_power_of_2(n)] returns for every integer [n] a number
    [256 * 2^j] that is at least [n]; it is the least such number: either
    [j = 0] (the result is 256) or the result is below [2 * n]. *)
Theorem next_highest_power_of_2_spec (m : Z) :
  ∃ j : nat, Pyramid.next_highest_power_of_2 m = 256 * 2 ^ Z.of_nat j
             ∧ m ≤ Pyramid.next_highest_power_of_2 m
             ∧ (j = 0%nat ∨ Pyramid.next_highest_power_of_2 m < 2 * m).
Proof.
  unfold Pyramid.next_highest_power_of_2.
  destruct (next_power_loop_spec (S (Z.to_nat m)) 0 m) as (j & Hj & Hle & Hmin).
  - replace (Z.of_nat 0 + Z.of_nat (S (Z.to_nat m)) - 1) with (Z.of_nat (Z.to_nat m)) by lia.
    destruct (Z.le_gt_cases m 0) as [Hm | Hm].
    + pose proof (Z.pow_nonneg 2 (Z.of_nat (Z.to_nat m)) ltac:(lia)). lia.
    + rewrite Z2Nat.id by lia.
      pose proof (Z.pow_gt_lin_r 2 m ltac:(lia) ltac:(lia)). lia.
  - lia.
  - by left.
  - change (256 * 2 ^ Z.of_nat 0) with 256 in Hj. rewrite Hj. simpl.
    exists j. split; [done | split; [done |]].
    destruct Hmin as [-> | Hmin]; [by left |].
    destruct j as [|j]; [by left | right].
    replace (Z.of_nat (S j) - 1) with (Z.of_nat j) in Hmin by lia.
    rewrite Nat2Z.inj_succ, Z.pow_succ_r by lia. lia.
Qed.

(** ** [Pyramid.generate_pos] *)

Lemma postfix_pos_fuel_enough (depth : Z) (fuel : nat) (p : Pos) :
  (Z.to_nat (depth + 1 - n p) < fuel)%nat →
  Pyramid.postfix_pos_fuel fuel p depth = Some (Pyramid._postfix_pos p depth).
Proof.
  revert p. induction fuel as [fuel IH] using lt_wf_ind. intros p Hfuel.
  destruct fuel as [|fuel]; [lia |].
  unfold Pyramid._postfix_pos.
  remember (Z.to_nat (depth + 1 - n p)) as k eqn:Hk. simpl.
  destruct (Z.gtb_spec (n p) depth) as [Hgt | Hle]; [done |].
  destruct p as [d a b]. simpl in *.
  rewrite !(IH fuel) by (simpl; lia). rewrite !(IH k) by (simpl; lia). done.
Qed.

Lemma postfix_pos_unfold (depth : Z) (p : Pos) :
  Pyramid._postfix_pos p depth =
  if n p >? depth then []
  else (c ← Pyramid.pos_children p; Pyramid._postfix_pos c depth) ++ [p].
Proof.
  unfold Pyramid._postfix_pos at 1. simpl.
  destruct (Z.gtb_spec (n p) depth) as [Hgt | Hle]; [done |].
  destruct p as [d a b]. simpl in *.
  rewrite !postfix_pos_fuel_enough by (simpl; lia).
  simpl. by rewrite !app_nil_r, <- !app_assoc.
Qed.

Lemma depth2tiles_step (k : Z) :
  0 ≤ k → Pyramid.depth2tiles (k + 1) = 4 * Pyramid.depth2tiles k + 1.
Proof.
  intros Hk.
  assert (Hd : ∀ d, 0 ≤ d → Pyramid.depth2tiles d = sum_pow4 d).
  { intros d Hd. unfold Pyramid.depth2tiles.
    rewrite <- (sum_pow4_geometric d Hd), Z.mul_comm. apply Z.div_mul. lia. }
  rewrite !Hd by lia.
  pose proof (sum_pow4_geometric k Hk). pose proof (sum_pow4_geometric (k + 1) ltac:(lia)).
  rewrite (Z.pow_add_r 4 (k + 1) 1) in * by lia. lia.
Qed.

Lemma postfix_pos_length (D : Z) (k : nat) (p : Pos) :
  n p + Z.of_nat k = D →
  Z.of_nat (length (Pyramid._postfix_pos p D)) = Pyramid.depth2tiles (Z.of_nat k).
Proof.
  revert p. induction k as [|k IH]; intros p Hk.
  - rewrite postfix_pos_unfold.
    destruct (Z.gtb_spec (n p) D) as [Hgt | _]; [lia |].
    destruct p as [d a b]. simpl in *.
    rewrite !(postfix_pos_unfold D (mkPos (d + 1) _ _)). simpl.
    by destruct (Z.gtb_spec (d + 1) D) as [_ | Hle]; [| lia].
  - rewrite postfix_pos_unfold.
    destruct (Z.gtb_spec (n p) D) as [Hgt | _]; [lia |].
    destruct p as [d a b]. simpl in *.
    rewrite !length_app. simpl.
    rewrite !Nat2Z.inj_add, !IH by (simpl; lia).
    replace (Z.of_nat (S k)) with (Z.of_nat k + 1) by lia.
    rewrite depth2tiles_step by lia. simpl. lia.
Qed.

Lemma postfix_pos_elem (D : Z) (k : nat) (p : Pos) :
  n p + Z.of_nat k = D →
  NoDup (Pyramid._postfix_pos p D)
  ∧ ∀ q, q ∈ Pyramid._postfix_pos p D ↔ n p ≤ n q ≤ D ∧ ancestor q (n p) = p.
Proof.
  revert p. induction k as [|k IH]; intros p Hk.
  - rewrite postfix_pos_unfold.
    destruct (Z.gtb_spec (n p) D) as [Hgt | _]; [lia |].
    destruct p as [d a b]. simpl in *.
    rewrite !(postfix_pos_unfold D (mkPos (d + 1) _ _)). simpl.
    destruct (Z.gtb_spec (d + 1) D) as [_ | Hle]; [| lia]. simpl.
    split; [apply NoDup_singleton |]. intros q. rewrite list_elem_of_singleton. split.
    + intros ->. simpl. split; [lia |]. apply (ancestor_self (mkPos d a b)).
    + intros [Hn Ha]. rewrite <- Ha. replace d with (n q) by lia.
      symmetry. apply ancestor_self.
  - rewrite postfix_pos_unfold.
    destruct (Z.gtb_spec (n p) D) as [Hgt | _]; [lia |].
    destruct p as [d a b]. simpl in *.
    repeat match goal with
    | |- context [Pyramid._postfix_pos ?c D] =>
        lazymatch c with
        | mkPos d a b => fail
        | _ =>
          let Hc := fresh "Hc" in
          let Hm := fresh "Hm" in
          let l := fresh "l" in
          destruct (IH c ltac:(simpl; lia)) as [Hc Hm]; simpl in Hm;
          set (l := Pyramid._postfix_pos c D) in *
        end
    end.
    rewrite app_nil_r. split.
    + rewrite !NoDup_app. repeat split; try done; try apply NoDup_singleton;
        intros q Hq; rewrite ?elem_of_app, ?list_elem_of_singleton in *;
        rewrite ?Hm, ?Hm0, ?Hm1, ?Hm2 in *.
      all: try (destruct Hq as (_ & Hq); rewrite Hq;
                intros Hr; repeat destruct Hr as [Hr | Hr];
                try (destruct Hr as (_ & [=]); lia)).
      all: try (intros ->; repeat destruct Hq as [Hq | Hq]; simpl in Hq; lia).
    + intros q. rewrite !elem_of_app, list_elem_of_singleton, Hm, Hm0, Hm1, Hm2. split.
      * intros [Hq | ->].
        -- assert (Hn : d + 1 ≤ n q ≤ D)
             by (repeat destruct Hq as [Hq | Hq]; apply Hq).
           split; [lia |]. apply ancestor_child_iff; [lia |].
           repeat destruct Hq as [Hq | Hq]; destruct Hq as (_ & ->); auto.
        -- simpl. split; [lia |]. apply (ancestor_self (mkPos d a b)).
      * intros [Hn Ha]. destruct (decide (n q = d)) as [Heq | Hne].
        -- right. rewrite <- Ha, <- Heq. symmetry. apply ancestor_self.
        -- left. apply ancestor_child_iff in Ha; [| lia].
           assert (d + 1 ≤ n q ≤ D) by lia.
           destruct Ha as [Ha | [Ha | [Ha | Ha]]]; auto 10.
Qed.

Lemma in_pyramid_root (p : Pos) :
  0 ≤ n p → in_pyramid p ↔ ancestor p 0 = mkPos 0 0 0.
Proof.
  intros Hn.
  assert (Hpow : 0 < 2 ^ n p) by (apply Z.pow_pos_nonneg; lia).
  unfold in_pyramid, ancestor. rewrite Z.sub_0_r. split.
  - intros [Hx Hy]. by rewrite !Z.div_small.
  - intros [= Hx Hy]. apply Z.div_small_iff in Hx, Hy; lia.
Qed.

Lemma before_app_l {A} (l v : list A) (a b : A) :
  before l a b → before (l ++ v) a b.
Proof.
  intros (l1 & l2 & l3 & ->). exists l1, l2, (l3 ++ v).
  by repeat first [rewrite <- app_assoc | rewrite <- app_comm_cons].
Qed.

Lemma before_app_r {A} (u l : list A) (a b : A) :
  before l a b → before (u ++ l) a b.
Proof.
  intros (l1 & l2 & l3 & ->). exists (u ++ l1), l2, l3.
  by rewrite <- app_assoc.
Qed.

Lemma before_last {A} (l : list A) (a b : A) :
  a ∈ l → before (l ++ [b]) a b.
Proof.
  intros (l1 & l2 & ->)%list_elem_of_split. exists l1, l2, [].
  by repeat first [rewrite <- app_assoc | rewrite <- app_comm_cons].
Qed.

Lemma postfix_pos_last (D : Z) (p : Pos) :
  n p ≤ D → ∃ l, Pyramid._postfix_pos p D = l ++ [p].
Proof.
  intros Hn. rewrite postfix_pos_unfold.
  destruct (Z.gtb_spec (n p) D) as [Hgt | _]; [lia |]. by eexists.
Qed.

Lemma postfix_pos_self (D : Z) (p : Pos) : n p ≤ D → p ∈ Pyramid._postfix_pos p D.
Proof.
  intros Hn. destruct (postfix_pos_last D p Hn) as [l ->].
  apply elem_of_app. right. by left.
Qed.

Lemma postfix_pos_before (D : Z) (k : nat) (p q c : Pos) :
  n p + Z.of_nat k = D →
  q ∈ Pyramid._postfix_pos p D → n q < D → c ∈ Pyramid.pos_children q →
  before (Pyramid._postfix_pos p D) c q.
Proof.
  revert p. induction k as [|k IH]; intros p Hk Hq Hn Hc.
  - apply (postfix_pos_elem D 0 p Hk) in Hq. lia.
  - rewrite postfix_pos_unfold in Hq |- *.
    destruct (Z.gtb_spec (n p) D) as [Hgt | _]; [lia |].
    apply elem_of_app in Hq as [Hq | Hq].
    + apply before_app_l.
      destruct p as [d a b]. simpl in *.
      rewrite !elem_of_app in Hq.
      destruct Hq as [Hq | [Hq | [Hq | [Hq | Hq]]]];
        [| | | | by apply elem_of_nil in Hq];
        apply IH in Hq; try done; try (simpl; lia).
      * by apply before_app_l.
      * by apply before_app_r, before_app_l.
      * by apply before_app_r, before_app_r, before_app_l.
      * by apply before_app_r, before_app_r, before_app_r, before_app_l.
    + apply list_elem_of_singleton in Hq as ->.
      apply before_last. apply list_elem_of_bind. exists c. split; [| done].
      apply postfix_pos_self.
      destruct p as [d a b]. unfold Pyramid.pos_children in Hc. simpl in *.
      rewrite !elem_of_cons, elem_of_nil in Hc.
      destruct Hc as [-> | [-> | [-> | [-> | []]]]]; simpl; lia.
Qed.

Lemma generate_pos_negative (D : Z) : D < 0 → Pyramid.generate_pos D = [].
Proof.
  intros HD. unfold Pyramid.generate_pos. rewrite postfix_pos_unfold. simpl.
  by destruct (Z.gtb_spec 0 D) as [_ | Hle]; [| lia].
Qed.

(** X3: for [depth >= 0], [generate_pos(depth)] yields
    [depth2tiles(depth)] positions. *)
Theorem generate_pos_count (D : Z) :
  0 ≤ D → Z.of_nat (length (Pyramid.generate_pos D)) = Pyramid.depth2tiles D.
Proof.
  intros HD. unfold Pyramid.generate_pos.
  rewrite (postfix_pos_length D (Z.to_nat D)) by (simpl; lia).
  f_equal. lia.
Qed.

Lemma generate_pos_elem (D : Z) :
  NoDup (Pyramid.generate_pos D)
  ∧ ∀ q, q ∈ Pyramid.generate_pos D ↔ 0 ≤ n q ≤ D ∧ in_pyramid q.
Proof.
  destruct (Z.lt_ge_cases D 0) as [Hneg | Hpos].
  - rewrite generate_pos_negative by done.
    split; [apply NoDup_nil_2 |]. intros q. rewrite elem_of_nil. split; [done | lia].
  - destruct (postfix_pos_elem D (Z.to_nat D) (mkPos 0 0 0) ltac:(simpl; lia))
      as [Hnd Hmem].
    split; [done |]. intros q. unfold Pyramid.generate_pos. rewrite Hmem. simpl. split.
    + intros [Hn Ha]. split; [done |]. apply in_pyramid_root; [lia | done].
    + intros [Hn Hin]. split; [done |]. apply in_pyramid_root; [lia | done].
Qed.

(** X4: [generate_pos(depth)] yields no position twice, and yields
    exactly the positions [(n, x, y)] with [0 <= n <= depth] and
    [0 <= x, y < 2^n]; for a negative [depth] it yields nothing. *)
Theorem generate_pos_positions (D : Z) :
  NoDup (Pyramid.generate_pos D)
  ∧ ∀ q, q ∈ Pyramid.generate_pos D ↔ 0 ≤ n q ≤ D ∧ in_pyramid q.
Proof. apply generate_pos_elem. Qed.

(** In a list without duplicates, "before" fixes the order of the two
    indices. *)
Lemma before_NoDup_lookup {A} (l : list A) (a b : A) (i j : nat) :
  NoDup l → before l a b → l !! i = Some a → l !! j = Some b → (i < j)%nat.
Proof.
  intros Hnd (l1 & l2 & l3 & ->) Hi Hj.
  assert (Ha : (l1 ++ a :: l2 ++ b :: l3) !! length l1 = Some a).
  { by rewrite list_lookup_middle. }
  assert (Hb : (l1 ++ a :: l2 ++ b :: l3) !! (length l1 + S (length l2))%nat = Some b).
  { rewrite lookup_app_r by lia.
    replace (length l1 + S (length l2) - length l1)%nat with (S (length l2)) by lia.
    simpl. by rewrite list_lookup_middle. }
  rewrite (NoDup_lookup _ _ _ _ Hnd Hi Ha), (NoDup_lookup _ _ _ _ Hnd Hj Hb). lia.
Qed.

(** X5: when [generate_pos(depth)] yields a position [q] of depth below
    [depth], each of the four children of [q] was yielded earlier. *)
Theorem generate_pos_children_first (D : Z) (q c : Pos) (j : nat) :
  Pyramid.generate_pos D !! j = Some q → n q < D → c ∈ Pyramid.pos_children q →
  ∃ i, (i < j)%nat ∧ Pyramid.generate_pos D !! i = Some c.
Proof.
  intros Hj Hn Hc.
  assert (Hq : q ∈ Pyramid.generate_pos D) by (apply list_elem_of_lookup; eauto).
  destruct (Z.lt_ge_cases D 0) as [Hneg | Hpos].
  { rewrite generate_pos_negative in Hq by done. by apply elem_of_nil in Hq. }
  assert (Hb : before (Pyramid.generate_pos D) c q).
  { by apply (postfix_pos_before D (Z.to_nat D)); [simpl; lia | | |]. }
  destruct (generate_pos_elem D) as [Hnd _].
  assert (Hci : c ∈ Pyramid.generate_pos D).
  { destruct Hb as (l1 & l2 & l3 & ->). apply elem_of_app. right. by left. }
  apply list_elem_of_lookup in Hci as [i Hi].
  exists i. split; [| done]. by apply (before_NoDup_lookup _ c q i j Hnd Hb).
Qed.

(** ** [is_subtile] *)

Lemma is_subtile_raises (d s : Pos) :
  n d < n s → is_subtile d s = Some (Raises ValueError).
Proof.
  intros Hn. unfold is_subtile. simpl.
  by destruct (Z.ltb_spec (n d) (n s)) as [_ | Hge]; [| lia].
Qed.

Lemma is_subtile_result (d s : Pos) :
  is_subtile d s
  = Some (if n d <? n s then Raises ValueError
          else Returns (bool_decide (ancestor d (n s) = s))).
Proof.
  destruct (Z.ltb_spec (n d) (n s)) as [Hlt | Hge].
  - by apply is_subtile_raises.
  - by apply is_subtile_spec.
Qed.

(** X8: [toast.is_subtile(deeper, shallower)] always ends: it raises
    [ValueError] when [deeper] has the lower depth, and otherwise returns
    whether the ancestor of [deeper] at the depth of [shallower] is
    [shallower]. *)
Theorem is_subtile_total (d s : Pos) :
  is_subtile d s
  = Some (if n d <? n s then Raises ValueError
          else Returns (bool_decide (ancestor d (n s) = s))).
Proof. apply is_subtile_result. Qed.

Lemma pyramid_is_subtile_fuel (fuel : nat) (d s : Pos) :
  0 ≤ n s → (Z.to_nat (n d - n s) < fuel)%nat →
  Pyramid.is_subtile_fuel fuel d s = is_subtile_fuel fuel d s.
Proof.
  revert d. induction fuel as [|fuel IH]; intros d Hs Hfuel; [done |].
  simpl. destruct (n d <? n s) eqn:Hlt; [done |].
  destruct (Z.eqb_spec (n d) (n s)) as [Heq | Hne]; [done |].
  apply Z.ltb_ge in Hlt. unfold Pyramid.pos_parent.
  destruct (Z.ltb_spec (n d) 1) as [H1 | _]; [lia |].
  apply IH; simpl; lia.
Qed.

(** X6: for a shallower position of depth at least 0,
    [pyramid.is_subtile] and [toast.is_subtile] give the same result
    (value or exception). *)
Theorem pyramid_is_subtile_agrees (d s : Pos) :
  0 ≤ n s → Pyramid.is_subtile d s = is_subtile d s.
Proof.
  intros Hs. unfold Pyramid.is_subtile, is_subtile.
  apply pyramid_is_subtile_fuel; [done | lia].
Qed.

Lemma pyramid_is_subtile_fuel_below (fuel : nat) (d s : Pos) :
  n s < 0 → n s < n d → (Z.to_nat (n d - n s) < fuel)%nat →
  Pyramid.is_subtile_fuel fuel d s = Some (Raises ValueError).
Proof.
  revert d. induction fuel as [|fuel IH]; intros d Hs Hd Hfuel; [lia |].
  simpl. destruct (Z.ltb_spec (n d) (n s)) as [Hlt | _]; [lia |].
  destruct (Z.eqb_spec (n d) (n s)) as [Heq | _]; [lia |].
  unfold Pyramid.pos_parent.
  destruct (Z.ltb_spec (n d) 1) as [H1 | H1]; [done |].
  apply IH; simpl; lia.
Qed.

(** X7: for a shallower position of negative depth below the depth of
    the deeper one, [pyramid.is_subtile] raises [ValueError]: the climb
    reaches depth 0 and [pos_parent] refuses to go further. *)
Theorem pyramid_is_subtile_below_root (d s : Pos) :
  n s < 0 → n s < n d → Pyramid.is_subtile d s = Some (Raises ValueError).
Proof.
  intros Hs Hd. apply pyramid_is_subtile_fuel_below; [done | done | lia].
Qed.

(** X9: the positions for which [toast.is_subtile] returns [True] form
    a partial order: every position is a subtile of itself, subtiles of
    subtiles are subtiles, and two positions that are subtiles of each
    other are equal. *)
Theorem is_subtile_order (a b c : Pos) :
  is_subtile a a = Some (Returns true)
  ∧ (is_subtile a b = Some (Returns true) → is_subtile b c = Some (Returns true) →
     is_subtile a c = Some (Returns true))
  ∧ (is_subtile a b = Some (Returns true) → is_subtile b a = Some (Returns true) →
     a = b).
Proof.
  assert (Htrue : ∀ d s, is_subtile d s = Some (Returns true)
                         ↔ n s ≤ n d ∧ ancestor d (n s) = s).
  { intros d s. rewrite is_subtile_result.
    destruct (Z.ltb_spec (n d) (n s)) as [Hlt | Hge].
    - split; [done | lia].
    - split.
      + intros [= Hb]. split; [done |]. by apply bool_decide_eq_true_1 in Hb.
      + intros [_ Ha]. do 2 f_equal. by apply bool_decide_eq_true_2. }
  rewrite !Htrue. split; [| split].
  - split; [lia | apply ancestor_self].
  - intros [Hab Ha] [Hbc Hb]. split; [lia |].
    rewrite <- Hb at 2. rewrite <- Ha. symmetry. apply ancestor_ancestor. lia.
  - intros [Hab Ha] [Hba Hb]. rewrite <- Ha.
    replace (n b) with (n a) by lia. symmetry. apply ancestor_self.
Qed.

(** ** Parents and children in [toasty.pyramid] *)

(** X2: for a position [p] of depth at least 0, [c] is entry [k] of
    [pos_children(p)] exactly when [k < 4] and [pos_parent(c)] returns
    [p] with the indices [k % 2] and [k // 2] (so the list is top left,
    top right, bottom left, bottom right, and [pos_parent] undoes
    [pos_children]). *)
Theorem pos_children_parent_iff (p c : Pos) (k : nat) :
  0 ≤ n p →
  Pyramid.pos_children p !! k = Some c
  ↔ (k < 4)%nat
    ∧ Pyramid.pos_parent c = Returns (p, Z.of_nat k `mod` 2, Z.of_nat k `div` 2).
Proof.
  intros Hn. destruct p as [d a b]. simpl in Hn.
  unfold Pyramid.pos_children, Pyramid.pos_parent. cbn [n x y].
  split.
  - intros Hk. destruct k as [|[|[|[|k]]]]; simpl in Hk; [| | | | done];
      injection Hk as <-; (split; [lia |]); cbn [n x y];
      (destruct (Z.ltb_spec (d + 1) 1) as [Hlt | _]; [lia |]);
      rewrite ?double_div2, ?double_succ_div2, ?double_mod2, ?double_succ_mod2;
      by replace (d + 1 - 1) with d by lia.
  - intros [Hk Hp]. destruct c as [cn cx cy]. cbn [n x y] in Hp.
    destruct (Z.ltb_spec cn 1) as [Hlt | Hge]; [done |].
    remember (Z.of_nat k `mod` 2) as i eqn:Hi.
    remember (Z.of_nat k `div` 2) as j eqn:Hj.
    injection Hp as Hd Ha Hb Hx Hy.
    pose proof (Z.div_mod cx 2 ltac:(lia)) as Hdx.
    pose proof (Z.div_mod cy 2 ltac:(lia)) as Hdy.
    destruct k as [|[|[|[|k]]]]; [| | | | lia]; vm_compute in Hi, Hj; subst i j;
      simpl; f_equal; f_equal; lia.
Qed.


(** ** The traversal under any filter *)

Section TraversalOrder.
Context {geo : Geometry}.

Lemma div4_pos (t c : Tile) :
  c ∈ _div4 t →
  n (pos c) = n (pos t) + 1
  ∧ (_parent (pos c)).1.1 = pos t
  ∧ increasing c = increasing t.
Proof.
  destruct t as [[d a b] [[[ul ur] lr] ll] inc]. unfold _div4. simpl.
  rewrite !elem_of_cons, elem_of_nil.
  intros [-> | [-> | [-> | [-> | []]]]]; simpl;
    (split; [lia | split; [| done]]);
    rewrite ?double_div2, ?double_succ_div2; f_equal; lia.
Qed.

Lemma accepted_path_pos (f : Tile → bool) (t u : Tile) :
  accepted_path f t u →
  n (pos t) ≤ n (pos u) ∧ ancestor (pos u) (n (pos t)) = pos t
  ∧ increasing u = increasing t ∧ f u = true.
Proof.
  induction 1 as [t Hf | t c u Hf Hc Hpath (Hn & Ha & Hi & Hu)].
  - split; [lia |]. split; [apply ancestor_self | done].
  - apply div4_pos in Hc as (Hcn & Hcp & Hci).
    split; [lia |]. split; [| split; [congruence | done]].
    rewrite ancestor_parent by lia. by rewrite <- Hcn, Ha.
Qed.

(** What a traversal below a tile yields, for any filter: the tiles
    reached through accepted tiles, down to [D]; only those at [D] when
    [bottom_only] is set. *)
Lemma postfix_corner_elem (D : Z) (bo : bool) (f : Tile → bool) (k : nat)
  (t u : Tile) :
  (Z.to_nat (D + 1 - n (pos t)) ≤ k)%nat →
  u ∈ _postfix_corner t D bo f ↔
  accepted_path f t u ∧ n (pos u) ≤ D ∧ (bo = true → n (pos u) = D).
Proof.
  revert t. induction k as [|k IH]; intros t Hk.
  - rewrite postfix_corner_below by lia. rewrite elem_of_nil. split; [done |].
    intros (Hp & Hn & _). apply accepted_path_pos in Hp. lia.
  - rewrite postfix_corner_unfold.
    destruct (Z.gtb_spec (n (pos t)) D) as [Hgt | Hle].
    { rewrite elem_of_nil. split; [done |].
      intros (Hp & Hn & _). apply accepted_path_pos in Hp. lia. }
    destruct (f t) eqn:Hf; simpl.
    + rewrite elem_of_app, list_elem_of_bind. split.
      * intros [(c & Hu & Hc) | Hu].
        -- pose proof (div4_pos t c Hc) as (Hcn & _).
           apply IH in Hu as (Hp & Hn & Hbo); [| lia].
           split; [| done]. by eapply accepted_below.
        -- destruct (Z.eqb_spec (n (pos t)) D) as [Heq | Hne], bo; simpl in Hu;
             try (by apply elem_of_nil in Hu);
             apply list_elem_of_singleton in Hu as ->;
             (split; [by apply accepted_here | split; [lia | done || lia]]).
      * intros (Hp & Hn & Hbo). inversion Hp as [t' Hf' | t' c u' Hf' Hc Hpath]; subst.
        -- right. destruct (Z.eqb_spec (n (pos u)) D) as [Heq | Hne]; simpl.
           ++ by left.
           ++ destruct bo; simpl; [by specialize (Hbo eq_refl) | by left].
        -- left. exists c. split; [| done].
           pose proof (div4_pos t c Hc) as (Hcn & _).
           apply IH; [lia | done].
    + rewrite elem_of_nil. split; [done |].
      intros (Hp & _). inversion Hp; congruence.
Qed.


Lemma iter_corners_unfold (D : Z) (bo : bool) (filt : option (Tile → bool)) :
  iter_corners D bo filt
  = b ← base_tiles; _postfix_corner b D bo (default (fun _ => true) filt).
Proof. done. Qed.

(** X12: for any filter, [iter_corners(depth, bottom_only, tile_filter)]
    yields a tile exactly when it is reached from one of the four depth-1
    tiles by [_div4] steps through tiles that all pass the filter (the
    tile itself included), its depth is at most [depth], and, when
    [bottom_only] is set, its depth is [depth].  A rejected tile prunes
    everything below it. *)
Theorem iter_corners_pruning (D : Z) (bo : bool) (filt : option (Tile → bool))
  (u : Tile) :
  u ∈ iter_corners D bo filt ↔
  ∃ b, b ∈ base_tiles
       ∧ accepted_path (default (fun _ => true) filt) b u
       ∧ n (pos u) ≤ D ∧ (bo = true → n (pos u) = D).
Proof.
  rewrite iter_corners_unfold, list_elem_of_bind.
  split; intros (b & Hb1 & Hb2); exists b.
  - split; [done |].
    by apply (postfix_corner_elem D bo _ (Z.to_nat (D + 1 - n (pos b)))) in Hb1.
  - split; [| done].
    by apply (postfix_corner_elem D bo _ (Z.to_nat (D + 1 - n (pos b)))).
Qed.

Lemma postfix_corner_pos (D : Z) (bo : bool) (f : Tile → bool) (t u : Tile) :
  u ∈ _postfix_corner t D bo f →
  n (pos t) ≤ n (pos u) ≤ D ∧ ancestor (pos u) (n (pos t)) = pos t
  ∧ increasing u = increasing t ∧ f u = true.
Proof.
  intros Hu.
  apply (postfix_corner_elem D bo _ (Z.to_nat (D + 1 - n (pos t)))) in Hu
    as (Hp & Hn & _); [| lia].
  apply accepted_path_pos in Hp as (? & ? & ? & ?). done.
Qed.

Lemma fmap_bind_list {A B C} (g : B → C) (h : A → list B) (l : list A) :
  g <$> (l ≫= h) = l ≫= (fun a => g <$> h a).
Proof.
  induction l as [|a l IH]; [done |].
  by rewrite !bind_cons, fmap_app, IH.
Qed.

Lemma div4_inj (t c1 c2 : Tile) :
  c1 ∈ _div4 t → c2 ∈ _div4 t → pos c1 = pos c2 → c1 = c2.
Proof.
  destruct t as [[d a b] [[[ul ur] lr] ll] inc]. unfold _div4. simpl.
  rewrite !elem_of_cons, !elem_of_nil.
  intros [-> | [-> | [-> | [-> | []]]]] [-> | [-> | [-> | [-> | []]]]];
    simpl; intros [=]; first [done | lia].
Qed.

Lemma div4_NoDup (t : Tile) : NoDup (_div4 t).
Proof.
  apply (NoDup_fmap_1 pos).
  destruct t as [[d a b] [[[ul ur] lr] ll] inc]. unfold _div4. simpl.
  rewrite !NoDup_cons, !not_elem_of_cons.
  repeat split; try (intros [=]; lia);
    first [apply not_elem_of_nil | apply NoDup_nil_2].
Qed.

Lemma postfix_corner_NoDup (D : Z) (bo : bool) (f : Tile → bool) (k : nat) (t : Tile) :
  (Z.to_nat (D + 1 - n (pos t)) ≤ k)%nat →
  NoDup (pos <$> _postfix_corner t D bo f).
Proof.
  revert t. induction k as [|k IH]; intros t Hk.
  - rewrite postfix_corner_below by lia. apply NoDup_nil_2.
  - rewrite postfix_corner_unfold.
    destruct (Z.gtb_spec (n (pos t)) D) as [Hgt | Hle]; [apply NoDup_nil_2 |].
    destruct (f t); simpl; [| apply NoDup_nil_2].
    assert (Hin : ∀ c p, c ∈ _div4 t →
                         p ∈ pos <$> _postfix_corner c D bo f →
                         n (pos t) + 1 ≤ n p ∧ ancestor p (n (pos t) + 1) = pos c).
    { intros c p Hc (u & -> & Hu)%list_elem_of_fmap.
      apply div4_pos in Hc as (Hc & _).
      apply postfix_corner_pos in Hu as ([Hn _] & Ha & _).
      rewrite <- Hc. split; [lia | done]. }
    rewrite fmap_app, fmap_bind_list. apply NoDup_app. split; [| split].
    + apply NoDup_bind; [| | apply div4_NoDup].
      * intros c1 c2 p Hc1 Hc2 Hp1 Hp2.
        apply (div4_inj t); [done | done |].
        apply (Hin c1) in Hp1 as [_ <-]; [| done].
        by apply (Hin c2) in Hp2 as [_ <-].
      * intros c Hc. apply IH. apply div4_pos in Hc as (Hc & _). lia.
    + intros p (c & Hp & Hc)%list_elem_of_bind.
      apply (Hin c) in Hp as [Hn _]; [| done].
      destruct (_ || _); simpl; [| by intros ?%elem_of_nil].
      intros Hp%list_elem_of_singleton. subst p. simpl in Hn. lia.
    + destruct (_ || _); simpl; [apply NoDup_singleton | apply NoDup_nil_2].
Qed.

Lemma iter_corners_in_pyramid_nodup (D : Z) (bo : bool)
  (filt : option (Tile → bool)) :
  NoDup (pos <$> iter_corners D bo filt).
Proof.
  set (f := default (fun _ => true) filt).
  - rewrite iter_corners_unfold, fmap_bind_list. apply NoDup_bind.
    + intros b1 b2 p Hb1 Hb2 Hp1 Hp2.
      assert (Hin : ∀ b, b ∈ base_tiles → p ∈ pos <$> _postfix_corner b D bo f →
                         ancestor p 1 = pos b).
      { intros b Hb (v & -> & Hv)%list_elem_of_fmap.
        apply postfix_corner_pos in Hv as (_ & Ha & _).
        unfold base_tiles in Hb. rewrite !elem_of_cons, elem_of_nil in Hb.
        by destruct Hb as [-> | [-> | [-> | [-> | []]]]]. }
      pose proof (Hin b1 Hb1 Hp1) as H1. pose proof (Hin b2 Hb2 Hp2) as H2.
      rewrite H1 in H2. clear -Hb1 Hb2 H2.
      unfold base_tiles in *. rewrite !elem_of_cons, elem_of_nil in Hb1, Hb2.
      destruct Hb1 as [-> | [-> | [-> | [-> | []]]]],
               Hb2 as [-> | [-> | [-> | [-> | []]]]]; done.
    + intros b Hb. apply (postfix_corner_NoDup D bo f (Z.to_nat (D + 1 - n (pos b)))). lia.
    + apply (NoDup_fmap_1 pos). unfold base_tiles. simpl.
      rewrite !NoDup_cons, !not_elem_of_cons.
      repeat split; try done; first [apply not_elem_of_nil | apply NoDup_nil_2].
Qed.

(** X13: for any filter, [iter_corners] yields no position twice, and
    every tile it yields has a depth between 1 and [depth], coordinates
    [0 <= x, y < 2^n], and passes the filter. *)
Theorem iter_corners_in_pyramid (D : Z) (bo : bool) (filt : option (Tile → bool)) :
  NoDup (pos <$> iter_corners D bo filt)
  ∧ ∀ u, u ∈ iter_corners D bo filt →
         1 ≤ n (pos u) ≤ D ∧ in_pyramid (pos u)
         ∧ default (fun _ => true) filt u = true.
Proof.
  split; [apply iter_corners_in_pyramid_nodup |].
  intros u. rewrite iter_corners_unfold, list_elem_of_bind.
  intros (b & Hu & Hb). apply postfix_corner_pos in Hu as (Hn & Ha & _ & Hf).
  assert (Hb1 : n (pos b) = 1).
  { unfold base_tiles in Hb. rewrite !elem_of_cons, elem_of_nil in Hb.
    by destruct Hb as [-> | [-> | [-> | [-> | []]]]]. }
  rewrite Hb1 in *. split; [done |]. split; [| done].
  apply root_child_iff; [lia |]. rewrite Ha.
  unfold base_tiles in Hb. rewrite !elem_of_cons, elem_of_nil in Hb.
  destruct Hb as [-> | [-> | [-> | [-> | []]]]]; auto.
Qed.

(** X14: every tile [iter_corners] yields carries the [increasing] flag
    of the depth-1 tile above it: true exactly when that depth-1 tile lies
    on the diagonal [x = y]. *)
Theorem iter_corners_increasing (D : Z) (bo : bool) (filt : option (Tile → bool))
  (u : Tile) :
  u ∈ iter_corners D bo filt →
  increasing u
  = bool_decide (x (ancestor (pos u) 1) = y (ancestor (pos u) 1)).
Proof.
  rewrite iter_corners_unfold, list_elem_of_bind.
  intros (b & Hu & Hb). apply postfix_corner_pos in Hu as (_ & Ha & Hi & _).
  rewrite Hi. unfold base_tiles in Hb. rewrite !elem_of_cons, elem_of_nil in Hb.
  destruct Hb as [-> | [-> | [-> | [-> | []]]]];
    change (n (pos (mkTile (mkPos 1 _ _) _ _))) with 1 in Ha; by rewrite Ha.
Qed.


Lemma postfix_corner_all_length (D : Z) (k : nat) (t : Tile) :
  n (pos t) + Z.of_nat k = D →
  Z.of_nat (length (_postfix_corner t D false (fun _ => true)))
  = Pyramid.depth2tiles (Z.of_nat k).
Proof.
  revert t. induction k as [|k IH]; intros t Hk.
  - rewrite postfix_corner_unfold.
    destruct (Z.gtb_spec (n (pos t)) D) as [Hgt | _]; [lia |].
    destruct t as [[d a b] [[[ul ur] lr] ll] inc]. unfold _div4. simpl in *.
    rewrite orb_true_r. by rewrite !postfix_corner_below by (simpl; lia).
  - rewrite postfix_corner_unfold.
    destruct (Z.gtb_spec (n (pos t)) D) as [Hgt | _]; [lia |].
    destruct t as [[d a b] [[[ul ur] lr] ll] inc]. unfold _div4. simpl in *.
    rewrite orb_true_r, !length_app. simpl.
    rewrite !Nat2Z.inj_add, !IH by (simpl; lia).
    replace (Z.of_nat (S k)) with (Z.of_nat k + 1) by lia.
    rewrite depth2tiles_step by lia. simpl. lia.
Qed.

Lemma iter_corners_all_length (D : Z) :
  0 ≤ D →
  Z.of_nat (length (iter_corners D false None)) = depth2tiles D - 1.
Proof.
  intros HD. destruct (decide (D = 0)) as [-> | Hne].
  - done.
  - unfold iter_corners. simpl.
    rewrite !length_app. simpl.
    rewrite !Nat2Z.inj_add, !(postfix_corner_all_length D (Z.to_nat (D - 1)))
      by (simpl; lia).
    change (depth2tiles D) with (Pyramid.depth2tiles D).
    replace D with ((D - 1) + 1) at 5 by lia.
    rewrite depth2tiles_step by lia. rewrite Z2Nat.id by lia. simpl. lia.
Qed.

(** X15: for [depth >= 0], without a filter and with [bottom_only]
    false, [iter_corners(depth)] yields [depth2tiles(depth) - 1] tiles:
    every tile of the pyramid but the root. *)
Theorem iter_corners_all_levels_count (D : Z) :
  0 ≤ D →
  Z.of_nat (length (iter_corners D false None)) = depth2tiles D - 1.
Proof. apply iter_corners_all_length. Qed.

Lemma postfix_corner_last (D : Z) (f : Tile → bool) (t : Tile) :
  n (pos t) ≤ D → f t = true →
  ∃ l, _postfix_corner t D false f = l ++ [t].
Proof.
  intros Hn Hf. rewrite postfix_corner_unfold, Hf.
  destruct (Z.gtb_spec (n (pos t)) D) as [Hgt | _]; [lia |].
  simpl. rewrite orb_true_r. by eexists.
Qed.

Lemma postfix_corner_before (D : Z) (f : Tile → bool) (k : nat) (t u c : Tile) :
  (Z.to_nat (D + 1 - n (pos t)) ≤ k)%nat →
  u ∈ _postfix_corner t D false f → n (pos u) < D → c ∈ _div4 u → f c = true →
  before (_postfix_corner t D false f) c u.
Proof.
  revert t. induction k as [|k IH]; intros t Hk Hu Hn Hc Hfc.
  - rewrite postfix_corner_below in Hu by lia. by apply elem_of_nil in Hu.
  - rewrite postfix_corner_unfold in Hu |- *.
    destruct (Z.gtb_spec (n (pos t)) D) as [Hgt | Hle];
      [by apply elem_of_nil in Hu |].
    destruct (f t); simpl in *; [| by apply elem_of_nil in Hu].
    rewrite orb_true_r in *.
    apply elem_of_app in Hu as [Hu | Hu].
    + apply before_app_l.
      apply list_elem_of_bind in Hu as (c' & Hu & Hc').
      pose proof (div4_pos t c' Hc') as (Hcn & _).
      apply IH in Hu; [| lia | done | done | done].
      apply list_elem_of_split in Hc' as (l1 & l2 & ->).
      rewrite bind_app, bind_cons.
      by apply before_app_r, before_app_l.
    + apply list_elem_of_singleton in Hu as ->.
      apply before_last. apply list_elem_of_bind. exists c. split; [| done].
      pose proof (div4_pos t c Hc) as (Hcn & _).
      destruct (postfix_corner_last D f c ltac:(lia) Hfc) as [l ->].
      apply elem_of_app. right. by left.
Qed.

(** X16: with [bottom_only] false and any filter, when [iter_corners]
    yields a tile of depth below [depth], each of its [_div4] children
    that passes the filter was yielded earlier. *)
Theorem iter_corners_children_first (D : Z) (filt : option (Tile → bool))
  (u c : Tile) (j : nat) :
  iter_corners D false filt !! j = Some u →
  n (pos u) < D → c ∈ _div4 u → default (fun _ => true) filt c = true →
  ∃ i, (i < j)%nat ∧ iter_corners D false filt !! i = Some c.
Proof.
  intros Hj Hn Hc Hfc.
  assert (Hu : u ∈ iter_corners D false filt) by (apply list_elem_of_lookup; eauto).
  assert (Hb : before (iter_corners D false filt) c u).
  { rewrite iter_corners_unfold in Hu |- *.
    apply list_elem_of_bind in Hu as (b & Hu & Hb).
    apply (postfix_corner_before D _ (Z.to_nat (D + 1 - n (pos b))) b u c) in Hu;
      [| lia | done | done | done].
    apply list_elem_of_split in Hb as (l1 & l2 & ->).
    rewrite bind_app, bind_cons. by apply before_app_r, before_app_l. }
  assert (Hnd : NoDup (iter_corners D false filt)).
  { apply (NoDup_fmap_1 pos). apply iter_corners_in_pyramid_nodup. }
  assert (Hci : c ∈ iter_corners D false filt).
  { destruct Hb as (l1 & l2 & l3 & ->). apply elem_of_app. right. by left. }
  apply list_elem_of_lookup in Hci as [i Hi].
  exists i. split; [| done]. by apply (before_NoDup_lookup _ c u i j Hnd Hb).
Qed.

(** X11: the filter [nxy_tile_filter(layer, tx, ty)] never raises, and
    it accepts a tile exactly when the tile is deeper than [layer], or the
    tile is the ancestor at its own depth of the position
    [(layer, tx, ty)]. *)
Theorem nxy_tile_filter_accepts (r : Pos) (t : Tile) :
  nxy_tile_filter_result (n r) (x r) (y r) t
  = Some (nxy_tile_filter (n r) (x r) (y r) t)
  ∧ (nxy_tile_filter (n r) (x r) (y r) t = true ↔
     n r < n (pos t) ∨ (n (pos t) ≤ n r ∧ ancestor r (n (pos t)) = pos t)).
Proof.
  unfold nxy_tile_filter. rewrite nxy_tile_filter_returns. simpl.
  split; [done |].
  destruct (Z.gtb_spec (n (pos t)) (n r)) as [Hgt | Hle].
  - split; [by left | done].
  - rewrite bool_decide_eq_true. split; [by right | intros [? | [_ ?]]; [lia | done]].
Qed.

End TraversalOrder.

(** X10: for a position [c] one level below [p], [toast.is_subtile(c,
    p)] returns [True] exactly when [c] is one of [pyramid.pos_children(p)]. *)
Theorem is_subtile_children (p c : Pos) :
  n c = n p + 1 →
  is_subtile c p = Some (Returns true) ↔ c ∈ Pyramid.pos_children p.
Proof.
  intros Hn. rewrite is_subtile_result.
  destruct (Z.ltb_spec (n c) (n p)) as [Hlt | _]; [lia |].
  pose proof (ancestor_child_iff c (n p) (x p) (y p) ltac:(lia)) as Hiff.
  replace (n p + 1) with (n c) in Hiff by lia. rewrite ancestor_self in Hiff.
  replace (mkPos (n p) (x p) (y p)) with p in Hiff by (by destruct p).
  unfold Pyramid.pos_children. simpl.
  rewrite !elem_of_cons, elem_of_nil. rewrite Hn in Hiff. split.
  - intros [= Hb]. apply bool_decide_eq_true_1 in Hb. apply Hiff in Hb. tauto.
  - intros Hc. do 2 f_equal. apply bool_decide_eq_true_2, Hiff. tauto.
Qed.

(** ** The accumulator of the reducer *)

Section Accumulator.
Context {np : Numpy}.

Lemma nparent_empty : nparent (∅ : gmap Pos (gmap (Z * Z) (option ndarray))) = 0.
Proof. done. Qed.

Lemma nparent_delete (parents : gmap Pos (gmap (Z * Z) (option ndarray)))
  (p : Pos) (c : gmap (Z * Z) (option ndarray)) :
  parents !! p = Some c →
  nparent parents = Z.of_nat (size c) + nparent (delete p parents).
Proof.
  intros Hp. unfold nparent.
  apply (map_fold_delete_L (fun _ v acc => Z.of_nat (size v) + acc)); [| done].
  intros. lia.
Qed.

Lemma nparent_insert (parents : gmap Pos (gmap (Z * Z) (option ndarray)))
  (p : Pos) (c : gmap (Z * Z) (option ndarray)) :
  nparent (<[p := c]> parents) = Z.of_nat (size c) + nparent (delete p parents).
Proof.
  rewrite (nparent_delete (<[p := c]> parents) p c) by apply lookup_insert_eq.
  by rewrite delete_insert_eq.
Qed.

Lemma nparent_delete_le (parents : gmap Pos (gmap (Z * Z) (option ndarray))) (p : Pos) :
  nparent (delete p parents) ≤ nparent parents.
Proof.
  destruct (parents !! p) as [c |] eqn:Hp.
  - rewrite (nparent_delete parents p c Hp). lia.
  - by rewrite delete_id.
Qed.

Lemma nparent_nonneg (parents : gmap Pos (gmap (Z * Z) (option ndarray))) :
  0 ≤ nparent parents.
Proof.
  induction parents as [|p c m Hp IH] using map_ind; [done |].
  rewrite nparent_insert, delete_id by done. lia.
Qed.

(** Registering one image adds at most one to the count. *)
Lemma nparent_register (parents : gmap Pos (gmap (Z * Z) (option ndarray)))
  (p : Pos) (q : Z * Z) (im : option ndarray) :
  nparent (<[p := <[q := im]> (default ∅ (parents !! p))]> parents)
  ≤ nparent parents + 1.
Proof.
  rewrite nparent_insert.
  destruct (parents !! p) as [c |] eqn:Hp; simpl.
  - rewrite (nparent_delete parents p c Hp).
    pose proof (map_size_insert q im c) as Hs.
    destruct (c !! q); simpl in Hs; unfold id in Hs; lia.
  - rewrite delete_id by done. rewrite insert_empty, map_size_singleton. lia.
Qed.

Lemma quadrant_keys_full (c : gmap (Z * Z) (option ndarray)) :
  (∀ a b, is_Some (c !! (a, b)) → 0 ≤ a < 2 ∧ 0 ≤ b < 2) →
  (4 ≤ size c)%nat →
  is_Some (c !! (0, 0)) ∧ is_Some (c !! (1, 0))
  ∧ is_Some (c !! (0, 1)) ∧ is_Some (c !! (1, 1)).
Proof.
  intros Hkeys Hsize.
  assert (Hsub : dom c ⊆ ({[ (0, 0); (1, 0); (0, 1); (1, 1) ]} : gset (Z * Z))).
  { intros [a b] Hk%elem_of_dom. apply Hkeys in Hk.
    rewrite !elem_of_union, !elem_of_singleton.
    assert (Ha : a = 0 ∨ a = 1) by lia. assert (Hb : b = 0 ∨ b = 1) by lia.
    destruct Ha as [-> | ->], Hb as [-> | ->]; auto. }
  apply set_subseteq_size_eq in Hsub.
  - rewrite <- !elem_of_dom, Hsub, !elem_of_union, !elem_of_singleton. auto 10.
  - rewrite size_dom. etrans; [| exact Hsize]. by vm_compute.
Qed.

Lemma quadrant_keys_register (parents : gmap Pos (gmap (Z * Z) (option ndarray)))
  (p : Pos) (a b : Z) (im : option ndarray) :
  0 ≤ a < 2 → 0 ≤ b < 2 → quadrant_keys parents →
  quadrant_keys (<[p := <[(a, b) := im]> (default ∅ (parents !! p))]> parents).
Proof.
  intros Ha Hb Hq p' c a' b' Hp Hc. destruct (decide (p' = p)) as [-> | Hne].
  - rewrite lookup_insert_eq in Hp. injection Hp as <-.
    destruct (decide ((a', b') = (a, b))) as [[= -> ->] | Hk]; [done |].
    rewrite lookup_insert_ne in Hc by done.
    destruct (parents !! p) as [c0 |] eqn:Hc0; simpl in Hc.
    + by apply (Hq p c0).
    + rewrite lookup_empty in Hc. by destruct Hc.
  - rewrite lookup_insert_ne in Hp by done. by apply (Hq p' c).
Qed.

Lemma quadrant_keys_delete (parents : gmap Pos (gmap (Z * Z) (option ndarray))) (p : Pos) :
  quadrant_keys parents → quadrant_keys (delete p parents).
Proof.
  intros Hq p' c a b Hp Hc. apply lookup_delete_Some in Hp as [_ Hp].
  by apply (Hq p' c).
Qed.

(** The invariants of one call of the reducer: the keys stay quadrant
    codes, the count grows by at most one, the only exception is the
    failed assertion, and it leaves the accumulator over the bound. *)
Lemma trickle_up_invariants (merge : Merge) (depth top : Z) (k : nat)
  (im : option ndarray) (node : Pos)
  (parents : gmap Pos (gmap (Z * Z) (option ndarray))) :
  (size parents ≤ k)%nat → quadrant_keys parents →
  quadrant_keys (_trickle_up im node parents merge depth top).1.2
  ∧ nparent (_trickle_up im node parents merge depth top).1.2 ≤ nparent parents + 1
  ∧ ((_trickle_up im node parents merge depth top).2 = Exhausted
     ∨ (_trickle_up im node parents merge depth top).2 = Raised AssertionError
       ∧ 4 * Z.max depth 1
         < nparent (_trickle_up im node parents merge depth top).1.2).
Proof.
  revert im node parents. induction k as [k IH] using lt_wf_ind.
  intros im node parents Hk Hq.
  rewrite trickle_up_unfold. cbv zeta.
  destruct (Z.leb_spec (nparent parents) (4 * Z.max depth 1)) as [Hle | Hgt]; simpl;
    [| split; [done | split; [lia | right; split; [done | lia]]]].
  destruct (n node =? top); [split; [done | split; [simpl; lia | by left]] |].
  destruct (negb (truthy merge) && (n node >? 1));
    [split; [done | split; [simpl; lia | by left]] |].
  set (parent := mkPos (n node - 1) (x node `div` 2) (y node `div` 2)).
  set (q := (x node `mod` 2, y node `mod` 2)).
  set (corners := <[q := im]> (default ∅ (parents !! parent))).
  pose proof (quadrant_keys_register parents parent (x node `mod` 2) (y node `mod` 2) im
                ltac:(apply Z.mod_pos_bound; lia) ltac:(apply Z.mod_pos_bound; lia) Hq)
    as Hq'.
  pose proof (nparent_register parents parent q im) as Hn'.
  fold q corners in Hq', Hn'.
  destruct (Z.ltb_spec (Z.of_nat (size corners)) 4) as [Hlt | Hge].
  { split; [done | split; [done | by left]]. }
  destruct (quadrant_keys_full corners) as ([ul Hul] & [ur Hur] & [bl Hbl] & [br Hbr]).
  { intros a b Hab. apply (Hq' parent corners); [apply lookup_insert_eq | done]. }
  { lia. }
  rewrite Hul, Hur, Hbl, Hbr, parent_image_guarded.
  pose proof (registered_entry_size parents parent q im ltac:(fold corners; lia)) as Hsz.
  rewrite delete_insert_eq in Hsz.
  destruct (IH (size (delete parent parents)) ltac:(lia)
              (guarded_parent_image merge ul ur bl br) parent (delete parent parents)
              ltac:(lia) (quadrant_keys_delete _ _ Hq)) as (Hq2 & Hn2 & He2).
  destruct (_trickle_up _ parent _ _ _ _) as [[out' parents'] e]. simpl in *.
  split; [done |]. split; [| done].
  pose proof (nparent_delete_le parents parent). lia.
Qed.

(** Over the bound the assertion fails at once. *)
Lemma trickle_up_over_bound (merge : Merge) (depth top : Z)
  (im : option ndarray) (node : Pos)
  (parents : gmap Pos (gmap (Z * Z) (option ndarray))) :
  4 * Z.max depth 1 < nparent parents →
  _trickle_up im node parents merge depth top = ([], parents, Raised AssertionError).
Proof.
  intros Hgt. rewrite trickle_up_unfold. cbv zeta.
  by destruct (Z.leb_spec (nparent parents) (4 * Z.max depth 1)) as [Hle | _]; [lia |].
Qed.

End Accumulator.

(** ** A merged run without a filter *)

Section MergedRun.
Context {geo : Geometry} {np : Numpy} {fs : FileSystem}.
Variables (s : Sampler) (depth : Z) (merge : Merge) (rd : option string) (top : Z).
Hypothesis merge_on : truthy merge = true.

Lemma subtree_items_inner (k : nat) (t : Tile) :
  subtree_items s rd merge depth k t
  = inner_items s rd merge depth k t
    ++ report depth (pos t) (subtree_image s rd merge k t).
Proof. by destruct k. Qed.

(** A registration that leaves the parent pending. *)
Lemma trickle_up_pending (im : option ndarray) (node pt : Pos) (qx qy : Z)
  (parents : gmap Pos (gmap (Z * Z) (option ndarray))) :
  _parent node = (pt, qx, qy) →
  nparent parents ≤ 4 * Z.max depth 1 → n node ≠ top →
  (size (<[(qx, qy) := im]> (default ∅ (parents !! pt))) < 4)%nat →
  _trickle_up im node parents merge depth top
  = (report depth node im,
     <[pt := <[(qx, qy) := im]> (default ∅ (parents !! pt))]> parents, Exhausted).
Proof.
  intros Hpar Hbound Htop Hsize.
  rewrite trickle_up_unfold. cbv zeta. rewrite Hpar, merge_on. simpl.
  destruct (Z.leb_spec (nparent parents) (4 * Z.max depth 1)) as [_ | Hgt]; [| lia].
  destruct (Z.eqb_spec (n node) top) as [Heq | _]; [lia |]. simpl.
  by destruct (Z.ltb_spec (Z.of_nat (size (<[(qx, qy) := im]> (default ∅ (parents !! pt))))) 4)
    as [_ | Hge]; [| lia].
Qed.

(** The registration that completes the parent. *)
Lemma trickle_up_completing (im : option ndarray) (node pt : Pos) (qx qy : Z)
  (parents : gmap Pos (gmap (Z * Z) (option ndarray))) (ul ur bl br : option ndarray) :
  _parent node = (pt, qx, qy) →
  nparent parents ≤ 4 * Z.max depth 1 → n node ≠ top →
  let corners := <[(qx, qy) := im]> (default ∅ (parents !! pt)) in
  corners !! (0, 0) = Some ul → corners !! (1, 0) = Some ur →
  corners !! (0, 1) = Some bl → corners !! (1, 1) = Some br →
  _trickle_up im node parents merge depth top
  = let '(o, p, e) := _trickle_up (guarded_parent_image merge ul ur bl br) pt
                                  (delete pt parents) merge depth top in
    (report depth node im ++ o, p, e).
Proof.
  intros Hpar Hbound Htop corners Hul Hur Hbl Hbr.
  rewrite (trickle_up_complete im node parents merge depth top ul ur bl br);
    rewrite ?Hpar; try done.
  by left.
Qed.


(** Four subtrees under one parent, each ending in a registration at the
    parent: the first three leave it pending, the fourth completes it and
    the reducer goes on with the parent. *)
Lemma loop_four (pt c1 c2 c3 c4 : Pos) (q1 q2 q3 q4 : Z * Z)
  (parents : gmap Pos (gmap (Z * Z) (option ndarray)))
  (L1 L2 L3 L4 : list Tile) (i1 i2 i3 i4 ul ur bl br : option ndarray)
  (I1 I2 I3 I4 : list item) :
  parents !! pt = None →
  _parent c1 = (pt, q1.1, q1.2) → _parent c2 = (pt, q2.1, q2.2) →
  _parent c3 = (pt, q3.1, q3.2) → _parent c4 = (pt, q4.1, q4.2) →
  n c1 ≠ top → n c2 ≠ top → n c3 ≠ top → n c4 ≠ top →
  nparent parents + 3 ≤ 4 * Z.max depth 1 →
  let C1 : gmap (Z * Z) (option ndarray) := <[q1 := i1]> ∅ in
  let C2 := <[q2 := i2]> C1 in
  let C3 := <[q3 := i3]> C2 in
  let C4 := <[q4 := i4]> C3 in
  (size C1 < 4)%nat → (size C2 < 4)%nat → (size C3 < 4)%nat →
  C4 !! (0, 0) = Some ul → C4 !! (1, 0) = Some ur →
  C4 !! (0, 1) = Some bl → C4 !! (1, 1) = Some br →
  (∀ (L : list Tile) (c : Pos) (i : option ndarray) (I : list item),
     (L, c, i, I) ∈ [(L1, c1, i1, I1); (L2, c2, i2, I2);
                     (L3, c3, i3, I3); (L4, c4, i4, I4)] →
     ∀ p, nparent p ≤ nparent parents + 3 → delete pt p = parents →
          iter_tiles_loop L s depth merge false rd top p
          = let '(o, p', e) := _trickle_up i c p merge depth top in
            (filter (fun it : item => it.2 ≠ None) (I ++ o), p', e)) →
  iter_tiles_loop (L1 ++ L2 ++ L3 ++ L4) s depth merge false rd top parents
  = let '(o, p', e) := _trickle_up (guarded_parent_image merge ul ur bl br) pt
                                   parents merge depth top in
    (filter (fun it : item => it.2 ≠ None)
       (I1 ++ report depth c1 i1 ++ I2 ++ report depth c2 i2
           ++ I3 ++ report depth c3 i3 ++ I4 ++ report depth c4 i4 ++ o), p', e).
Proof.
  intros Hpt Hp1 Hp2 Hp3 Hp4 Ht1 Ht2 Ht3 Ht4 Hbound C1 C2 C3 C4 Hs1 Hs2 Hs3
         Hul Hur Hbl Hbr Hloop.
  destruct q1 as [a1 b1], q2 as [a2 b2], q3 as [a3 b3], q4 as [a4 b4]. simpl in *.
  pose proof (nparent_nonneg parents) as Hnn.
  assert (Hstate : ∀ C : gmap (Z * Z) (option ndarray), (size C < 4)%nat →
            nparent (<[pt := C]> parents) ≤ nparent parents + 3
            ∧ delete pt (<[pt := C]> parents) = parents
            ∧ default ∅ (<[pt := C]> parents !! pt) = C).
  { intros C HC. rewrite nparent_insert, delete_insert_eq, delete_id, lookup_insert_eq
      by done. split; [lia | done]. }
  destruct (Hstate C1 Hs1) as (Hn1 & Hd1 & He1).
  destruct (Hstate C2 Hs2) as (Hn2 & Hd2 & He2).
  destruct (Hstate C3 Hs3) as (Hn3 & Hd3 & He3).
  (* first *)
  rewrite iter_tiles_loop_app.
  rewrite (Hloop L1 c1 i1 I1) by (first [by left | lia | by apply delete_id]).
  rewrite (trickle_up_pending i1 c1 pt a1 b1 parents Hp1) by (rewrite ?Hpt; done || lia).
  rewrite Hpt. change (default ∅ None) with (∅ : gmap (Z * Z) (option ndarray)).
  fold C1. cbv beta iota zeta.
  (* second *)
  rewrite iter_tiles_loop_app.
  rewrite (Hloop L2 c2 i2 I2) by (first [by right; left | done]).
  rewrite (trickle_up_pending i2 c2 pt a2 b2 _ Hp2) by (rewrite ?He1; done || lia).
  rewrite He1, insert_insert_eq. fold C2. cbv beta iota zeta.
  (* third *)
  rewrite iter_tiles_loop_app.
  rewrite (Hloop L3 c3 i3 I3) by (first [by right; right; left | done]).
  rewrite (trickle_up_pending i3 c3 pt a3 b3 _ Hp3) by (rewrite ?He2; done || lia).
  rewrite He2, insert_insert_eq. fold C3. cbv beta iota zeta.
  (* fourth *)
  rewrite (Hloop L4 c4 i4 I4) by (first [by right; right; right; left | done]).
  rewrite (trickle_up_completing i4 c4 pt a4 b4 _ ul ur bl br Hp4)
    by (rewrite ?He3; done || lia).
  rewrite Hd3.
  destruct (_trickle_up _ pt parents _ _ _) as [[o p'] e].
  by rewrite !filter_app, <- !app_assoc.
Qed.


Hypothesis top_out : ¬ (1 ≤ top ≤ Z.max depth 1).

(** All the leaves below a tile: what is reported below the tile, and then
    the tile itself goes through the reducer with its subtree image. *)
Lemma loop_subtree (k : nat) (t : Tile)
  (parents : gmap Pos (gmap (Z * Z) (option ndarray))) :
  1 ≤ n (pos t) → n (pos t) + Z.of_nat k = Z.max depth 1 →
  (∀ u, n (pos t) ≤ n u → ancestor u (n (pos t)) = pos t → parents !! u = None) →
  nparent parents + 3 * Z.of_nat k ≤ 4 * Z.max depth 1 →
  iter_tiles_loop (_postfix_corner t (Z.max depth 1) true (fun _ => true))
                  s depth merge false rd top parents
  = let '(o, p', e) := _trickle_up (subtree_image s rd merge k t) (pos t)
                                   parents merge depth top in
    (filter (fun it : item => it.2 ≠ None) (inner_items s rd merge depth k t ++ o),
     p', e).
Proof.
  revert t parents. induction k as [|k IH]; intros t parents Hn Hk Hfresh Hbound.
  - rewrite postfix_corner_leaf by lia. simpl. rewrite andb_false_r.
    destruct (_trickle_up _ _ _ _ _ _) as [[o p'] [| e]]; by rewrite ?app_nil_r.
  - rewrite postfix_corner_inner by lia.
    destruct t as [[d a b] [[[ul ur] lr] ll] inc]. unfold _div4. simpl in Hn, Hk, Hfresh.
    unfold inner_items. unfold _div4.
    cbn [mbind list_bind foldr app pos n x y corners increasing subtree_image
         fmap list_fmap].
    unfold _div4.
    cbn [mbind list_bind foldr app pos n x y corners increasing fmap list_fmap].
    repeat match goal with
    | |- context [_postfix_corner ?c _ true _] =>
        lazymatch c with
        | mkTile _ _ _ => let T := fresh "T" in set (T := c) in *
        end
    end.
    rewrite !app_nil_r, !subtree_items_inner.
    rewrite (loop_four (mkPos d a b) (pos T) (pos T0) (pos T1) (pos T2)
               (0, 0) (1, 0) (0, 1) (1, 1) parents
               (_postfix_corner T _ true _) (_postfix_corner T0 _ true _)
               (_postfix_corner T1 _ true _) (_postfix_corner T2 _ true _)
               (subtree_image s rd merge k T) (subtree_image s rd merge k T0)
               (subtree_image s rd merge k T1) (subtree_image s rd merge k T2)
               (subtree_image s rd merge k T) (subtree_image s rd merge k T0)
               (subtree_image s rd merge k T1) (subtree_image s rd merge k T2)
               (inner_items s rd merge depth k T) (inner_items s rd merge depth k T0)
               (inner_items s rd merge depth k T1)
               (inner_items s rd merge depth k T2)).
    + destruct (_trickle_up _ _ _ _ _ _) as [[o p'] e]. cbn [pos].
      by rewrite <- !app_assoc.
    + apply Hfresh; [simpl; lia | apply (ancestor_self (mkPos d a b))].
    + pose proof (parent_of_child d a b 0 0) as Hp. rewrite !Z.add_0_r in Hp. by apply Hp.
    + pose proof (parent_of_child d a b 1 0) as Hp. rewrite !Z.add_0_r in Hp. by apply Hp.
    + pose proof (parent_of_child d a b 0 1) as Hp. rewrite !Z.add_0_r in Hp. by apply Hp.
    + by apply parent_of_child.
    + simpl. lia.
    + simpl. lia.
    + simpl. lia.
    + simpl. lia.
    + lia.
    + generalize (subtree_image s rd merge k T). intros. vm_compute. lia.
    + generalize (subtree_image s rd merge k T) (subtree_image s rd merge k T0).
      intros. vm_compute. lia.
    + generalize (subtree_image s rd merge k T) (subtree_image s rd merge k T0)
                 (subtree_image s rd merge k T1).
      intros. vm_compute. lia.
    + done.
    + done.
    + done.
    + done.
    + intros L' c i' I' Hin p Hp Hd.
      assert (Hsub : ∀ c' : Tile, n (pos c') = d + 1 →
                (_parent (pos c')).1.1 = mkPos d a b →
                ∀ u, n (pos c') ≤ n u → ancestor u (n (pos c')) = pos c' →
                     p !! u = None).
      { intros c' Hc' Hpar u Hu Ha.
        assert (Hne : u ≠ mkPos d a b) by (intros ->; simpl in Hu; lia).
        rewrite <- (lookup_delete_ne p (mkPos d a b) u) by done.
        rewrite Hd. apply Hfresh; [lia |].
        rewrite ancestor_parent by lia. rewrite <- Hc', Ha. done. }
      rewrite !elem_of_cons, elem_of_nil in Hin.
      destruct Hin as [[= -> -> -> ->] | [[= -> -> -> ->] | [[= -> -> -> ->]
                      | [[= -> -> -> ->] | []]]]];
        (rewrite IH; [done | simpl; lia | simpl; lia | | lia]);
        (apply Hsub; [done |]);
        simpl; rewrite ?double_div2, ?double_succ_div2; f_equal; lia.
Qed.

End MergedRun.

Lemma list_bind_nil {A B} (f : A → list B) : [] ≫= f = [].
Proof. done. Qed.

Section MergedRunTop.
Context {geo : Geometry} {np : Numpy} {fs : FileSystem}.

(** The root image is reported when the depth allows; the reducer stops
    there when [top] is 0 and registers the image one level up
    otherwise. *)
Lemma trickle_up_root_merged (merge : Merge) (depth top : Z) (im : option ndarray) :
  truthy merge = true →
  _trickle_up im (mkPos 0 0 0) ∅ merge depth top
  = (report depth (mkPos 0 0 0) im,
     (if top =? 0 then ∅ else {[ mkPos (-1) 0 0 := {[ (0, 0) := im ]} ]}),
     Exhausted).
Proof.
  intros Hm. rewrite trickle_up_unfold. cbv zeta. rewrite Hm.
  replace (nparent ∅) with 0 by done.
  destruct (Z.leb_spec 0 (4 * Z.max depth 1)) as [_ | Hgt]; [| lia].
  destruct top as [| p | p]; by vm_compute.
Qed.

Lemma merged_run_subtrees (s : Sampler) (depth : Z) (merge : Merge)
  (rd : option string) (top : Z) :
  truthy merge = true → ¬ (1 ≤ top ≤ Z.max depth 1) →
  let m := match merge with MergeBool true => MergeFn _default_merge | _ => merge end in
  let k := Z.to_nat (Z.max depth 1 - 1) in
  let image := subtree_image s rd m k in
  let root_im :=
    guarded_parent_image m
      (image (mkTile (mkPos 1 0 0) (level1_row 0) true))
      (image (mkTile (mkPos 1 1 0) (level1_row 1) false))
      (image (mkTile (mkPos 1 0 1) (level1_row 3) false))
      (image (mkTile (mkPos 1 1 1) (level1_row 2) true)) in
  iter_tiles s depth merge false None rd top
  = (filter (fun it : item => it.2 ≠ None)
       ((b ← base_tiles; subtree_items s rd m depth k b)
        ++ report depth (mkPos 0 0 0) root_im),
     (if top =? 0 then ∅ else {[ mkPos (-1) 0 0 := {[ (0, 0) := root_im ]} ]}),
     Exhausted).
Proof.
  intros Hm Htop m k image root_im.
  assert (Hm' : truthy m = true) by (by destruct merge as [[|] | ?]).
  rewrite iter_tiles_unfold, iter_corners_unfold, Hm. fold m.
  change (default (fun _ => true) None) with (fun _ : Tile => true).
  unfold base_tiles. rewrite !bind_cons.
  rewrite !list_bind_nil.
  rewrite !app_nil_r.
  set (b1 := mkTile (mkPos 1 0 0) (level1_row 0) true) in *.
  set (b2 := mkTile (mkPos 1 1 0) (level1_row 1) false) in *.
  set (b3 := mkTile (mkPos 1 1 1) (level1_row 2) true) in *.
  set (b4 := mkTile (mkPos 1 0 1) (level1_row 3) false) in *.
  rewrite (loop_four s depth m rd top Hm' (mkPos 0 0 0)
             (pos b1) (pos b2) (pos b3) (pos b4) (0, 0) (1, 0) (1, 1) (0, 1) ∅
             _ _ _ _ (image b1) (image b2) (image b3) (image b4)
             (image b1) (image b2) (image b4) (image b3)
             (inner_items s rd m depth k b1) (inner_items s rd m depth k b2)
             (inner_items s rd m depth k b3) (inner_items s rd m depth k b4)).
  - fold root_im. rewrite trickle_up_root_merged by done.
    rewrite !subtree_items_inner. fold image.
    by repeat first [rewrite <- app_assoc | rewrite <- app_comm_cons].
  - done.
  - done.
  - done.
  - done.
  - done.
  - simpl. lia.
  - simpl. lia.
  - simpl. lia.
  - simpl. lia.
  - rewrite nparent_empty. lia.
  - generalize (image b1). intros. vm_compute. lia.
  - generalize (image b1) (image b2). intros. vm_compute. lia.
  - generalize (image b1) (image b2) (image b3). intros. vm_compute. lia.
  - done.
  - done.
  - done.
  - done.
  - intros L c i I Hin p Hp Hd.
    rewrite nparent_empty in Hp.
    assert (Hfresh : ∀ u, 1 ≤ n u → p !! u = None).
    { intros u Hu.
      assert (Hne : u ≠ mkPos 0 0 0) by (intros ->; simpl in Hu; lia).
      rewrite <- (lookup_delete_ne p (mkPos 0 0 0) u) by done.
      by rewrite Hd. }
    rewrite !elem_of_cons, elem_of_nil in Hin.
    destruct Hin as [[= -> -> -> ->] | [[= -> -> -> ->] | [[= -> -> -> ->]
                    | [[= -> -> -> ->] | []]]]];
      (rewrite (loop_subtree s depth m rd top Hm' Htop k);
       [done | simpl; lia | simpl; lia | intros u Hu _; by apply Hfresh | lia]).
Qed.

(** The pairs of a subtree are those of the tiles of the traversal of all
    levels below the tile, in its order. *)
Lemma subtree_items_traversal (s : Sampler) (rd : option string) (merge : Merge)
  (depth D : Z) (k : nat) (t : Tile) :
  n (pos t) + Z.of_nat k = D →
  subtree_items s rd merge depth k t
  = (u ← _postfix_corner t D false (fun _ => true); pyramid_item s rd merge depth D u).
Proof.
  revert t. induction k as [|k IH]; intros t Hk.
  - rewrite postfix_corner_unfold.
    destruct (Z.gtb_spec (n (pos t)) D) as [Hgt | _]; [lia |].
    cbn [negb]. rewrite orb_true_r.
    destruct t as [[d a b] [[[ul ur] lr] ll] inc]. unfold _div4.
    cbn [mbind list_bind foldr app pos n x y corners increasing] in *.
    rewrite !postfix_corner_below by (simpl; lia).
    simpl. unfold pyramid_item. simpl.
    replace (Z.to_nat (D - d)) with 0%nat by lia. by rewrite app_nil_r.
  - rewrite postfix_corner_unfold.
    destruct (Z.gtb_spec (n (pos t)) D) as [Hgt | _]; [lia |].
    cbn [negb]. rewrite orb_true_r, bind_app.
    cbn [subtree_items]. f_equal.
    + destruct t as [[d a b] [[[ul ur] lr] ll] inc]. unfold _div4.
      cbn [mbind list_bind foldr app pos n x y corners increasing] in *.
      rewrite !app_nil_r, !bind_app.
      rewrite !IH by (simpl; lia). done.
    + unfold pyramid_item at 1. simpl. rewrite app_nil_r.
      by replace (Z.to_nat (D - n (pos t))) with (S k) by lia.
Qed.

Lemma merged_run_traversal (s : Sampler) (depth : Z) (merge : Merge)
  (rd : option string) (top : Z) :
  truthy merge = true → ¬ (1 ≤ top ≤ Z.max depth 1) →
  let D := Z.max depth 1 in
  let m := match merge with MergeBool true => MergeFn _default_merge | _ => merge end in
  let image := subtree_image s rd m (Z.to_nat (D - 1)) in
  let root_im :=
    guarded_parent_image m
      (image (mkTile (mkPos 1 0 0) (level1_row 0) true))
      (image (mkTile (mkPos 1 1 0) (level1_row 1) false))
      (image (mkTile (mkPos 1 0 1) (level1_row 3) false))
      (image (mkTile (mkPos 1 1 1) (level1_row 2) true)) in
  iter_tiles s depth merge false None rd top
  = (filter (fun it : item => it.2 ≠ None)
       ((u ← iter_corners D false None; pyramid_item s rd m depth D u)
        ++ report depth (mkPos 0 0 0) root_im),
     (if top =? 0 then ∅ else {[ mkPos (-1) 0 0 := {[ (0, 0) := root_im ]} ]}),
     Exhausted).
Proof.
  intros Hm Htop D m image root_im.
  rewrite (merged_run_subtrees s depth merge rd top Hm Htop). cbv zeta.
  fold D m image root_im. f_equal. f_equal. f_equal. f_equal.
  rewrite iter_corners_unfold.
  change (default (fun _ => true) None) with (fun _ : Tile => true).
  unfold base_tiles. rewrite !bind_cons, !list_bind_nil, !app_nil_r, !bind_app.
  by rewrite !(subtree_items_traversal s rd m depth D) by (simpl; lia).
Qed.

(** X20: with merging on (merge [True] or a callable), no filter,
    [base_level_only] false and a stop depth [top] outside
    [1 .. max(depth, 1)], [iter_tiles] never trips the assertion of the
    reducer.  It ends normally and yields, in the order of the traversal
    of all levels (children before parents, the root last), the pair of
    every tile not below [depth] whose image is not no data, where the
    image of a deepest tile is what the sampler gives and the image of
    every other tile is the parent image of its four children.  At the end
    the accumulator is empty when [top = 0], and otherwise holds only the
    root image registered one level above the root. *)
Theorem merged_run_builds_pyramid (s : Sampler) (depth : Z) (merge : Merge)
  (rd : option string) (top : Z) :
  truthy merge = true → ¬ (1 ≤ top ≤ Z.max depth 1) →
  let D := Z.max depth 1 in
  let m := match merge with MergeBool true => MergeFn _default_merge | _ => merge end in
  let image := subtree_image s rd m (Z.to_nat (D - 1)) in
  let root_im :=
    guarded_parent_image m
      (image (mkTile (mkPos 1 0 0) (level1_row 0) true))
      (image (mkTile (mkPos 1 1 0) (level1_row 1) false))
      (image (mkTile (mkPos 1 0 1) (level1_row 3) false))
      (image (mkTile (mkPos 1 1 1) (level1_row 2) true)) in
  iter_tiles s depth merge false None rd top
  = (filter (fun it : item => it.2 ≠ None)
       ((u ← iter_corners D false None; pyramid_item s rd m depth D u)
        ++ report depth (mkPos 0 0 0) root_im),
     (if top =? 0 then ∅ else {[ mkPos (-1) 0 0 := {[ (0, 0) := root_im ]} ]}),
     Exhausted).
Proof. apply merged_run_traversal. Qed.

End MergedRunTop.

(** ** How a run ends *)

Section RunInvariants.
Context {geo : Geometry} {np : Numpy} {fs : FileSystem}.

Lemma quadrant_keys_empty : quadrant_keys ∅.
Proof. intros p c a b Hp. by rewrite lookup_empty in Hp. Qed.

(** X18: if every key of the accumulator is a quadrant code (a pair of
    0 or 1), one call of [_trickle_up] keeps it so, leaves at most one
    image more in the accumulator than it found, and either ends normally
    or fails the assertion, in which case the accumulator holds more than
    [4 * max(depth, 1)] images.  No lookup of a quadrant fails with
    [KeyError] and the list of present quadrants is never empty when its
    first entry is taken. *)
Theorem trickle_up_no_key_error (merge : Merge) (depth top : Z)
  (im : option ndarray) (node : Pos)
  (parents : gmap Pos (gmap (Z * Z) (option ndarray))) :
  quadrant_keys parents →
  let r := _trickle_up im node parents merge depth top in
  quadrant_keys r.1.2
  ∧ nparent r.1.2 ≤ nparent parents + 1
  ∧ (r.2 = Exhausted
     ∨ r.2 = Raised AssertionError ∧ 4 * Z.max depth 1 < nparent r.1.2).
Proof.
  intros Hq. by apply (trickle_up_invariants merge depth top (size parents)).
Qed.

Lemma loop_invariants (s : Sampler) (depth : Z) (merge : Merge)
  (rd : option string) (top : Z) (tiles : list Tile)
  (parents : gmap Pos (gmap (Z * Z) (option ndarray))) :
  quadrant_keys parents → nparent parents ≤ 4 * Z.max depth 1 + 1 →
  let r := iter_tiles_loop tiles s depth merge false rd top parents in
  quadrant_keys r.1.2
  ∧ nparent r.1.2 ≤ 4 * Z.max depth 1 + 1
  ∧ (r.2 = Exhausted
     ∨ r.2 = Raised AssertionError ∧ nparent r.1.2 = 4 * Z.max depth 1 + 1).
Proof.
  revert parents. induction tiles as [|t tiles IH]; intros parents Hq Hn.
  - simpl. split; [done | split; [done | by left]].
  - cbn [iter_tiles_loop]. cbv zeta. rewrite andb_false_r. cbn [negb].
    destruct (Z.le_gt_cases (nparent parents) (4 * Z.max depth 1)) as [Hle | Hgt].
    + destruct (trickle_up_invariants merge depth top (size parents)
                  (resolve_image s rd t) (pos t) parents ltac:(done) Hq)
        as (Hq' & Hn' & He').
      destruct (_trickle_up _ _ _ _ _ _) as [[o p] e]. simpl in Hq', Hn', He'.
      destruct He' as [-> | [-> Hover]].
      * specialize (IH p Hq' ltac:(lia)).
        destruct (iter_tiles_loop tiles _ _ _ _ _ _ p) as [[o' p'] e'].
        exact IH.
      * simpl. split; [done | split; [lia | right; split; [done | lia]]].
    + rewrite trickle_up_over_bound by done. simpl.
      split; [done | split; [lia | right; split; [done | lia]]].
Qed.

(** X19: provided the sampler, the tile filter and the geometry and array
    primitives called outside a [try] block return (none of them
    raises), a run of [iter_tiles] either ends normally or ends by the
    failed assertion of the reducer, the latter only when
    [base_level_only] is false and with exactly [4 * max(depth, 1) + 1]
    images accumulated.  After each tile of the traversal, and so at the
    end, the accumulator holds at most that many images and its keys are
    quadrant codes. *)
Theorem iter_tiles_ending (s : Sampler) (depth : Z) (merge : Merge) (blo : bool)
  (f : option (Tile → bool)) (rd : option string) (top : Z) :
  let r := iter_tiles s depth merge blo f rd top in
  let m := match merge with MergeBool true => MergeFn _default_merge | _ => merge end in
  let tiles := iter_corners (Z.max depth 1) (truthy merge) f in
  quadrant_keys r.1.2
  ∧ nparent r.1.2 ≤ 4 * Z.max depth 1 + 1
  ∧ (r.2 = Exhausted
     ∨ r.2 = Raised AssertionError ∧ blo = false
       ∧ nparent r.1.2 = 4 * Z.max depth 1 + 1)
  ∧ ∀ k : nat,
      let rk := iter_tiles_loop (take k tiles) s depth m blo rd top ∅ in
      quadrant_keys rk.1.2 ∧ nparent rk.1.2 ≤ 4 * Z.max depth 1 + 1.
Proof.
  cbv zeta. rewrite iter_tiles_unfold. destruct blo.
  - rewrite base_level_loop. simpl.
    split; [apply quadrant_keys_empty |].
    split; [rewrite nparent_empty; lia |]. split; [by left |].
    intros k. rewrite base_level_loop. simpl.
    split; [apply quadrant_keys_empty | rewrite nparent_empty; lia].
  - destruct (loop_invariants s depth
                (match merge with MergeBool true => MergeFn _default_merge | _ => merge end)
                rd top (iter_corners (Z.max depth 1) (truthy merge) f) ∅
                quadrant_keys_empty ltac:(rewrite nparent_empty; lia))
      as (Hq & Hn & He).
    split; [done | split; [done |]]. split.
    + destruct He as [He | [He Hn']]; [by left | by right].
    + intros k.
      destruct (loop_invariants s depth
                  (match merge with MergeBool true => MergeFn _default_merge | _ => merge end)
                  rd top (take k (iter_corners (Z.max depth 1) (truthy merge) f)) ∅
                  quadrant_keys_empty ltac:(rewrite nparent_empty; lia))
        as (Hqk & Hnk & _).
      by split.
Qed.

End RunInvariants.

(** ** Tile paths *)

(** Two strings that agree after a separator neither has before it. *)
Lemma app_sep_inj (c : ascii) (a a' r r' : string) :
  has_char c a = false → has_char c a' = false →
  a +:+ String c r = a' +:+ String c r' → a = a' ∧ r = r'.
Proof.
  revert a'. induction a as [|h a IH]; intros [|h' a'] Ha Ha' Heq; simpl in *.
  - by injection Heq as ->.
  - injection Heq as <- _. by rewrite bool_decide_eq_true_2 in Ha'.
  - injection Heq as -> _. by rewrite bool_decide_eq_true_2 in Ha.
  - injection Heq as -> Heq.
    apply orb_false_iff in Ha as [_ Ha]. apply orb_false_iff in Ha' as [_ Ha'].
    destruct (IH a' Ha Ha' Heq) as [-> ->]. done.
Qed.

Lemma pretty_N_go_no_char (c : ascii) (v : N) (s : string) :
  (∀ d, pretty_N_char d ≠ c) →
  has_char c s = false → has_char c (pretty_N_go v s) = false.
Proof.
  intros Hc. revert s. induction (N.lt_wf_0 v) as [v _ IH]; intros s Hs.
  assert (v = 0 ∨ 0 < v)%N as [-> | Hpos] by lia; [done |].
  rewrite pretty_N_go_step by done. apply IH; [by apply N.div_lt |].
  simpl. rewrite Hs, orb_false_r. by apply bool_decide_eq_false_2.
Qed.

Lemma pretty_Z_no_char (c : ascii) (z : Z) :
  (∀ d, pretty_N_char d ≠ c) → c ≠ "-"%char →
  has_char c (pretty z) = false.
Proof.
  intros Hc Hdash.
  assert (Hzero : has_char c "0" = false).
  { simpl. rewrite orb_false_r. apply bool_decide_eq_false_2. apply (Hc 0%N). }
  assert (Hpos : ∀ p : positive, has_char c (pretty p) = false).
  { intros p. unfold pretty, pretty_positive, pretty, pretty_N.
    destruct (decide (N.pos p = 0%N)) as [? | _]; [done |].
    by apply pretty_N_go_no_char. }
  destruct z as [| p | p]; [done | apply Hpos |].
  change (pretty (Z.neg p)) with (String "-" (pretty p)).
  cbn [has_char]. rewrite (Hpos p), orb_false_r.
  apply bool_decide_eq_false_2. congruence.
Qed.

Lemma digit_not_separator (c : ascii) :
  c = "/"%char ∨ c = "_"%char ∨ c = "."%char →
  (∀ d, pretty_N_char d ≠ c) ∧ c ≠ "-"%char.
Proof.
  intros [-> | [-> | ->]]; (split; [| done]); intros d;
    unfold pretty_N_char; by repeat case_match.
Qed.

Lemma tile_path_inj_pos (n1 x1 y1 n2 x2 y2 : Z) :
  tile_path n1 x1 y1 = tile_path n2 x2 y2 → (n1, x1, y1) = (n2, x2, y2).
Proof.
  unfold tile_path. intros Heq.
  assert (Hfree : ∀ (c : ascii) (z : Z), c = "/"%char ∨ c = "_"%char ∨ c = "."%char →
                         has_char c (pretty z) = false).
  { intros c z Hc. destruct (digit_not_separator c Hc). by apply pretty_Z_no_char. }
  apply (app_sep_inj "/") in Heq as [Hn Heq]; [| apply Hfree; auto ..].
  apply (app_sep_inj "/") in Heq as [Hy Heq]; [| apply Hfree; auto ..].
  apply (app_sep_inj "_") in Heq as [_ Heq]; [| apply Hfree; auto ..].
  apply (app_sep_inj ".") in Heq as [Hx _]; [| apply Hfree; auto ..].
  apply (inj pretty) in Hn, Hy, Hx. by subst.
Qed.

(** X17: the path [n/y/y_x.png] determines the position: two tiles have
    the same path exactly when they have the same [n], [x] and [y]. *)
Theorem tile_path_inj (n1 x1 y1 n2 x2 y2 : Z) :
  tile_path n1 x1 y1 = tile_path n2 x2 y2 ↔ (n1, x1, y1) = (n2, x2, y2).
Proof. split; [apply tile_path_inj_pos | by intros [= -> -> ->]]. Qed.

Lemma pos_path_inj : Inj (=) (=) pos_path.
Proof.
  intros [n1 x1 y1] [n2 x2 y2] Heq. unfold pos_path in Heq. simpl in Heq.
  apply tile_path_inj_pos in Heq. by injection Heq as -> -> ->.
Qed.

Lemma sublist_fmap_mono {A B} (g : A → B) (l k : list A) :
  l `sublist_of` k → g <$> l `sublist_of` g <$> k.
Proof. induction 1; simpl; by constructor. Qed.

Section Paths.
Context {geo : Geometry} {np : Numpy} {fs : FileSystem}.


Lemma paths_from_nil : paths_from [] [].
Proof. constructor. Qed.

Lemma paths_from_app (l1 l2 : list item) (p1 p2 : list Pos) :
  paths_from l1 p1 → paths_from l2 p2 → paths_from (l1 ++ l2) (p1 ++ p2).
Proof. unfold paths_from. rewrite !fmap_app. apply sublist_app. Qed.

Lemma paths_from_filter (P : item → Prop) `{∀ it, Decision (P it)}
  (l : list item) (ps : list Pos) :
  paths_from l ps → paths_from (filter P l) ps.
Proof.
  unfold paths_from. intros Hl. etrans; [| exact Hl].
  apply sublist_fmap_mono, sublist_filter.
Qed.

Lemma paths_from_report (depth : Z) (p : Pos) (im : option ndarray) :
  paths_from (report depth p im) [p].
Proof.
  unfold paths_from, report. destruct (depth >=? n p); simpl.
  - by apply sublist_skip, sublist_nil.
  - by apply sublist_cons, sublist_nil.
Qed.

Lemma paths_from_bind (g : Tile → list item) (l : list Tile) :
  (∀ u, paths_from (g u) [pos u]) → paths_from (l ≫= g) (pos <$> l).
Proof.
  intros Hg. induction l as [|u l IH]; [apply paths_from_nil |].
  rewrite bind_cons. apply (paths_from_app _ _ [pos u]); [apply Hg | apply IH].
Qed.

Lemma paths_from_NoDup (l : list item) (ps : list Pos) :
  paths_from l ps → NoDup ps → NoDup l.*1 ∧ (length l ≤ length ps)%nat.
Proof.
  intros Hl Hps. split.
  - eapply sublist_NoDup; [| exact Hl]. by apply (@NoDup_fmap_2 _ _ pos_path pos_path_inj).
  - apply sublist_length in Hl. by rewrite !length_fmap in Hl.
Qed.

Lemma paths_from_base (s : Sampler) (rd : option string) (l : list Tile) :
  paths_from (omap (base_item s rd) l) (pos <$> l).
Proof.
  unfold paths_from. induction l as [|t l IH]; [constructor |].
  simpl. unfold base_item at 1.
  destruct (resolve_image s rd t); simpl; by constructor.
Qed.

(** X22: with [base_level_only] set, [iter_tiles] yields no path twice,
    whatever the filter. *)
Theorem base_level_paths_distinct (s : Sampler) (depth : Z) (merge : Merge)
  (f : option (Tile → bool)) (rd : option string) (top : Z) :
  NoDup (iter_tiles s depth merge true f rd top).1.1.*1.
Proof.
  rewrite iter_tiles_unfold, base_level_loop. simpl.
  eapply paths_from_NoDup; [apply paths_from_base |].
  apply iter_corners_in_pyramid_nodup.
Qed.

(** X21: with merging on, no filter, [base_level_only] false, a stop
    depth outside [1 .. max(depth, 1)] and [depth >= 0], [iter_tiles]
    yields no path twice and at most [depth2tiles(depth)] pairs. *)
Theorem merged_run_paths_distinct (s : Sampler) (depth : Z) (merge : Merge)
  (rd : option string) (top : Z) :
  truthy merge = true → ¬ (1 ≤ top ≤ Z.max depth 1) → 0 ≤ depth →
  let r := iter_tiles s depth merge false None rd top in
  NoDup r.1.1.*1 ∧ Z.of_nat (length r.1.1) ≤ depth2tiles depth.
Proof.
  intros Hm Htop Hd. cbv zeta.
  rewrite (merged_run_traversal s depth merge rd top Hm Htop). cbv zeta.
  set (m := match merge with MergeBool true => MergeFn _default_merge | _ => merge end).
  set (root_im := guarded_parent_image _ _ _ _ _).
  cbn [fst snd].
  destruct (decide (depth = 0)) as [-> | Hne].
  - change (Z.max 0 1) with 1.
    assert (Hnil : (u ← iter_corners 1 false None; pyramid_item s rd m 0 1 u) = []).
    { by vm_compute. }
    rewrite Hnil. split.
    + eapply (paths_from_NoDup _ [mkPos 0 0 0]).
      * apply paths_from_filter, paths_from_report.
      * apply NoDup_singleton.
    + pose proof (length_filter (fun it : item => it.2 ≠ None)
                    ([] ++ report 0 (mkPos 0 0 0) root_im)) as Hlen.
      change (depth2tiles 0) with 1. simpl in *. lia.
  - replace (Z.max depth 1) with depth in * by lia.
    assert (Hfrom : paths_from
              (filter (fun it : item => it.2 ≠ None)
                 ((u ← iter_corners depth false None; pyramid_item s rd m depth depth u)
                  ++ report depth (mkPos 0 0 0) root_im))
              ((pos <$> iter_corners depth false None) ++ [mkPos 0 0 0])).
    { apply paths_from_filter, paths_from_app; [| apply paths_from_report].
      apply paths_from_bind. intros u. apply paths_from_report. }
    apply paths_from_NoDup in Hfrom as [Hnd Hlen].
    + split; [done |].
      rewrite length_app, length_fmap in Hlen. simpl in Hlen.
      pose proof (iter_corners_all_length depth Hd). lia.
    + apply NoDup_app. split; [apply iter_corners_in_pyramid_nodup |].
      split; [| apply NoDup_singleton].
      intros p (u & -> & Hu)%list_elem_of_fmap Hroot.
      apply list_elem_of_singleton in Hroot.
      rewrite iter_corners_unfold in Hu.
      apply list_elem_of_bind in Hu as (b & Hu & Hb).
      apply postfix_corner_pos in Hu as (Hn & _).
      unfold base_tiles in Hb. rewrite !elem_of_cons, elem_of_nil in Hb.
      rewrite Hroot in Hn.
      destruct Hb as [-> | [-> | [-> | [-> | []]]]]; simpl in Hn; lia.
Qed.

End Paths.

(** ** The further properties at concrete inputs *)

Lemma generate_pos_count_at_2 :
  Z.of_nat (length (Pyramid.generate_pos 2)) = Pyramid.depth2tiles 2.
Proof. apply (generate_pos_count 2). lia. Defined.

Lemma generate_pos_children_first_at_root :
  ∃ i, (i < 4)%nat ∧ Pyramid.generate_pos 1 !! i = Some (mkPos 1 1 0).
Proof.
  apply (generate_pos_children_first 1 (mkPos 0 0 0) (mkPos 1 1 0) 4).
  - reflexivity.
  - simpl. lia.
  - vm_compute. right. left.
Defined.

Lemma pyramid_is_subtile_agrees_at_2_1_3 :
  Pyramid.is_subtile (mkPos 2 1 3) (mkPos 1 0 1)
  = is_subtile (mkPos 2 1 3) (mkPos 1 0 1).
Proof. apply (pyramid_is_subtile_agrees (mkPos 2 1 3) (mkPos 1 0 1)). simpl. lia. Defined.

Lemma pyramid_is_subtile_below_root_at_minus_1 :
  Pyramid.is_subtile (mkPos 1 0 0) (mkPos (-1) 0 0) = Some (Raises ValueError).
Proof.
  apply (pyramid_is_subtile_below_root (mkPos 1 0 0) (mkPos (-1) 0 0)); simpl; lia.
Defined.

Lemma is_subtile_order_at_2_1_3 :
  is_subtile (mkPos 2 1 3) (mkPos 0 0 0) = Some (Returns true).
Proof.
  apply (proj1 (proj2 (is_subtile_order (mkPos 2 1 3) (mkPos 1 0 1) (mkPos 0 0 0))));
    reflexivity.
Defined.

Lemma is_subtile_children_at_1_0_1 :
  is_subtile (mkPos 2 1 3) (mkPos 1 0 1) = Some (Returns true)
  ↔ mkPos 2 1 3 ∈ Pyramid.pos_children (mkPos 1 0 1).
Proof. apply (is_subtile_children (mkPos 1 0 1) (mkPos 2 1 3)). reflexivity. Defined.

Lemma pos_children_parent_iff_at_1_0_1 :
  Pyramid.pos_children (mkPos 1 0 1) !! 3%nat = Some (mkPos 2 1 3)
  ↔ (3 < 4)%nat ∧ Pyramid.pos_parent (mkPos 2 1 3) = Returns (mkPos 1 0 1, 1, 1).
Proof. apply (pos_children_parent_iff (mkPos 1 0 1) (mkPos 2 1 3) 3). simpl. lia. Defined.

Lemma iter_corners_in_pyramid_at_1 :
  1 ≤ 1 ≤ 1 ∧ in_pyramid (mkPos 1 1 0) ∧ true = true.
Proof.
  apply (proj2 (iter_corners_in_pyramid (geo := Concrete.planar) 1 false None)
           (mkTile (mkPos 1 1 0) (level1_row 1) false)).
  vm_compute. right. left.
Defined.

Lemma iter_corners_increasing_at_1 :
  false = bool_decide (x (ancestor (mkPos 1 1 0) 1) = y (ancestor (mkPos 1 1 0) 1)).
Proof.
  apply (iter_corners_increasing (geo := Concrete.planar) 1 false None
           (mkTile (mkPos 1 1 0) (level1_row 1) false)).
  vm_compute. right. left.
Defined.

Lemma iter_corners_all_levels_count_at_2 :
  Z.of_nat (length (iter_corners (geo := Concrete.planar) 2 false None))
  = depth2tiles 2 - 1.
Proof. apply (iter_corners_all_levels_count (geo := Concrete.planar) 2). lia. Defined.

Lemma iter_corners_children_first_at_1_0_0 :
  let b := mkTile (geo := Concrete.planar) (mkPos 1 0 0) (level1_row 0) true in
  ∃ i, (i < 4)%nat
       ∧ iter_corners (geo := Concrete.planar) 2 false None !! i
         = Some (nth 1 (_div4 b) b).
Proof.
  intros b.
  apply (iter_corners_children_first (geo := Concrete.planar) 2 None b
           (nth 1 (_div4 b) b) 4).
  - reflexivity.
  - simpl. lia.
  - vm_compute. right. left.
  - reflexivity.
Defined.

Lemma three_quadrants_keys : quadrant_keys Concrete.three_quadrants.
Proof.
  intros p c a b Hp Hc. unfold Concrete.three_quadrants in Hp.
  apply lookup_singleton_Some in Hp as [_ <-].
  destruct Hc as [v Hv].
  apply lookup_insert_Some in Hv as [[[= <- <-] _] | [_ Hv]]; [lia |].
  apply lookup_insert_Some in Hv as [[[= <- <-] _] | [_ Hv]]; [lia |].
  apply lookup_singleton_Some in Hv as [[= <- <-] _]. lia.
Qed.

Lemma trickle_up_no_key_error_at_root :
  let r := _trickle_up (Some Concrete.tile8) (mkPos 1 1 1) Concrete.three_quadrants
             (MergeFn _default_merge) 1 0 in
  quadrant_keys r.1.2
  ∧ nparent r.1.2 ≤ nparent Concrete.three_quadrants + 1
  ∧ (r.2 = Exhausted ∨ r.2 = Raised AssertionError ∧ 4 * Z.max 1 1 < nparent r.1.2).
Proof.
  apply (trickle_up_no_key_error (np := Concrete.numpy) (MergeFn _default_merge) 1 0
           (Some Concrete.tile8) (mkPos 1 1 1) Concrete.three_quadrants).
  apply three_quadrants_keys.
Defined.

Lemma merged_run_builds_pyramid_at_depth1 :
  iter_tiles Concrete.flat_sampler 1 (MergeBool true) false None None 0
  = ([("1/0/0_0.png", Some Concrete.tile8); ("1/0/0_1.png", Some Concrete.tile8);
      ("1/1/1_1.png", Some Concrete.tile8); ("1/1/1_0.png", Some Concrete.tile8);
      ("0/0/0_0.png", Some Concrete.tile8)], ∅, Exhausted).
Proof.
  rewrite (merged_run_builds_pyramid (np := Concrete.numpy)
             Concrete.flat_sampler 1 (MergeBool true) None 0);
    [by vm_compute | done | lia].
Defined.

Lemma merged_run_paths_distinct_at_depth1 :
  let r := iter_tiles Concrete.flat_sampler 1 (MergeBool true) false None None 0 in
  NoDup r.1.1.*1 ∧ Z.of_nat (length r.1.1) ≤ depth2tiles 1.
Proof.
  apply (merged_run_paths_distinct (np := Concrete.numpy)
           Concrete.flat_sampler 1 (MergeBool true) None 0); [done | lia | lia].
Defined.
